(** * The batch generation scheduler of the App component

    A shallow embedding of the state handled by [App] (the React component
    of the repository) and of its handlers: [handleGenerate], [handleCancel],
    the scheduler effect with its [runGeneration] closures, and
    [handleRegenerate].

    Modelling choices.
    - The component state (the [useState] cells and the two [useRef] cells)
      is one record, [App].  A handler is a function on that record; the
      functional updates queued by [setOutputs (prev => ...)] are applied in
      the order in which the code queues them.
    - Numbers that serve as ids are integers ([Z]); the prompt id [-1] of
      vector mode needs the sign.
    - [processingIds] is a JavaScript [Set] of numbers: a [gset Z].
    - Strings are sequences of code units below 256.
    - A call of [generateImageEdit] that has not settled yet is recorded in
      [calls]; its settlement is a later, separate step ([settle]).  The
      theme cells and the rendering are left out: no handler below reads
      them. *)

From Stdlib Require Import ZArith String Ascii List Bool Lia.
From stdpp Require Import base gmap list strings sorting.

Open Scope Z_scope.

(** ** Data model (types.ts) *)

Inductive Mode := vector | matrix.

Inductive OutputStatus := pending | generating | complete | error.

#[global] Instance Mode_eq_dec : EqDecision Mode.
Proof. solve_decision. Defined.

#[global] Instance OutputStatus_eq_dec : EqDecision OutputStatus.
Proof. solve_decision. Defined.

Module UploadedImage.
(** The [file] field is an opaque browser object that no handler reads. *)
Record t := mk { id : Z; base64Data : string }.
End UploadedImage.

Module Prompt.
Record t := mk { id : Z; title : string; text : string }.
End Prompt.

Module Output.
Record t := mk {
  id : Z;
  sourceImageId : Z;
  promptId : Z;
  imageUrl : option string;
  status : OutputStatus;
  error : option string
}.

(** [{ ...o, status: st }] *)
Definition withStatus (st : OutputStatus) (o : t) : t :=
  mk (id o) (sourceImageId o) (promptId o) (imageUrl o) st (error o).

(** [{ ...o, status: st, error: e }] *)
Definition withStatusError (st : OutputStatus) (e : option string) (o : t) : t :=
  mk (id o) (sourceImageId o) (promptId o) (imageUrl o) st e.

(** [{ ...o, status: st, imageUrl: u, error: e }] *)
Definition withResult (st : OutputStatus) (u e : option string) (o : t) : t :=
  mk (id o) (sourceImageId o) (promptId o) u st e.
End Output.

#[global] Instance Output_eq_dec : EqDecision Output.t.
Proof. solve_decision. Defined.

(** A dispatched [generateImageEdit] call that has not settled: the id of
    the job its closure captured, and the two arguments it was given. *)
Record Call := mkCall {
  callJob : Z;
  callImageData : string;
  callPromptText : string
}.

(** ** Component state *)

Definition API_CONCURRENCY_LIMIT : Z := 2.

Record App := mkApp {
  currentMode : Mode;
  uploadedImages : list UploadedImage.t;
  prompts : list Prompt.t;
  vectorPrompt : string;
  outputs : list Output.t;
  isGenerating : bool;
  nextId : Z;
  processingIds : gset Z;
  calls : list Call
}.

Definition initialApp : App :=
  mkApp vector [] [] "" [] false 0 ∅ [].

Definition setCurrentMode (m : Mode) (s : App) : App :=
  mkApp m (uploadedImages s) (prompts s) (vectorPrompt s) (outputs s)
        (isGenerating s) (nextId s) (processingIds s) (calls s).

Definition setUploadedImages (f : list UploadedImage.t → list UploadedImage.t)
    (s : App) : App :=
  mkApp (currentMode s) (f (uploadedImages s)) (prompts s) (vectorPrompt s)
        (outputs s) (isGenerating s) (nextId s) (processingIds s) (calls s).

Definition setPrompts (f : list Prompt.t → list Prompt.t) (s : App) : App :=
  mkApp (currentMode s) (uploadedImages s) (f (prompts s)) (vectorPrompt s)
        (outputs s) (isGenerating s) (nextId s) (processingIds s) (calls s).

Definition setVectorPrompt (v : string) (s : App) : App :=
  mkApp (currentMode s) (uploadedImages s) (prompts s) v (outputs s)
        (isGenerating s) (nextId s) (processingIds s) (calls s).

Definition setOutputs (f : list Output.t → list Output.t) (s : App) : App :=
  mkApp (currentMode s) (uploadedImages s) (prompts s) (vectorPrompt s)
        (f (outputs s)) (isGenerating s) (nextId s) (processingIds s) (calls s).

Definition setIsGenerating (b : bool) (s : App) : App :=
  mkApp (currentMode s) (uploadedImages s) (prompts s) (vectorPrompt s)
        (outputs s) b (nextId s) (processingIds s) (calls s).

Definition setNextId (n : Z) (s : App) : App :=
  mkApp (currentMode s) (uploadedImages s) (prompts s) (vectorPrompt s)
        (outputs s) (isGenerating s) n (processingIds s) (calls s).

Definition setProcessingIds (f : gset Z → gset Z) (s : App) : App :=
  mkApp (currentMode s) (uploadedImages s) (prompts s) (vectorPrompt s)
        (outputs s) (isGenerating s) (nextId s) (f (processingIds s)) (calls s).

Definition setCalls (f : list Call → list Call) (s : App) : App :=
  mkApp (currentMode s) (uploadedImages s) (prompts s) (vectorPrompt s)
        (outputs s) (isGenerating s) (nextId s) (processingIds s) (f (calls s)).

(** ** Strings: [String.prototype.trim] *)

(** White space and line terminators among the code units below 256:
    TAB, LF, VT, FF, CR, SP and NBSP. *)
Definition isWhiteSpace (c : ascii) : bool :=
  let n := N_of_ascii c in
  ((9 <=? n) && (n <=? 13) || (n =? 32) || (n =? 160))%N.

Fixpoint trimStart (s : string) : string :=
  match s with
  | EmptyString => EmptyString
  | String c r => if isWhiteSpace c then trimStart r else s
  end.

Definition trim (s : string) : string :=
  String.rev (trimStart (String.rev (trimStart s))).

(** ** handleGenerate *)

(** The object pushed by the inner loop body. *)
Definition newOutput (n : Z) (image : UploadedImage.t) (prompt : Prompt.t)
    : Output.t :=
  Output.mk n (UploadedImage.id image) (Prompt.id prompt) None pending None.

(** One iteration of the inner loop: [newOutputs.push({ id: nextId.current++, ... })].
    The accumulator is [newOutputs] together with [nextId.current]. *)
Definition pushOutput (image : UploadedImage.t) (acc : list Output.t * Z)
    (prompt : Prompt.t) : list Output.t * Z :=
  (acc.1 ++ [newOutput acc.2 image prompt], acc.2 + 1).

(** The two nested [for ... of] loops. *)
Definition buildOutputs (images : list UploadedImage.t)
    (promptsToUse : list Prompt.t) (next : Z) : list Output.t * Z :=
  fold_left (λ acc image, fold_left (pushOutput image) promptsToUse acc)
            images ([], next).

Definition alertText : string := "Please add at least one image and one prompt.".

(** The handler returns the new state and the messages passed to [alert]. *)
Definition handleGenerate (s : App) : App * list string :=
  if isGenerating s || (length (uploadedImages s) =? 0)%nat then (s, [])
  else
    let isVectorReady :=
      bool_decide (currentMode s = vector)
      && negb (String.eqb (trim (vectorPrompt s)) "") in
    let isMatrixReady :=
      bool_decide (currentMode s = matrix)
      && (0 <? length (prompts s))%nat in
    if negb isVectorReady && negb isMatrixReady then (s, [alertText])
    else
      let promptsToUse :=
        match currentMode s with
        | vector => [Prompt.mk (-1) "Vector" (vectorPrompt s)]
        | matrix => prompts s
        end in
      let built := buildOutputs (uploadedImages s) promptsToUse (nextId s) in
      (setIsGenerating true
         (setOutputs (λ _, built.1) (setNextId built.2 s)), []).

(** ** handleCancel *)

Definition cancelledText : string := "Cancelled by user.".

Definition cancelOutput (o : Output.t) : Output.t :=
  if bool_decide (Output.status o = pending)
     || bool_decide (Output.status o = generating)
  then Output.withStatusError error (Some cancelledText) o
  else o.

Definition handleCancel (s : App) : App :=
  setProcessingIds (λ _, ∅)
    (setOutputs (fmap cancelOutput) (setIsGenerating false s)).

(** ** handleRegenerate *)

Definition regenerateOutput (jid : Z) (o : Output.t) : Output.t :=
  if Output.id o =? jid then Output.withResult pending None None o else o.

Definition handleRegenerate (jid : Z) (s : App) : App :=
  let s1 := setOutputs (fmap (regenerateOutput jid)) s in
  if negb (isGenerating s) then setIsGenerating true s1 else s1.

(** ** The scheduler effect *)

(** [Array.prototype.slice(0, end)] for an integer [end]: a negative [end]
    counts from the end of the array. *)
Definition slice0 {A : Type} (l : list A) (e : Z) : list A :=
  let len := Z.of_nat (length l) in
  let final := if e <? 0 then Z.max (len + e) 0 else Z.min e len in
  take (Z.to_nat final) l.

Definition isPendingOutput (P : gset Z) (o : Output.t) : bool :=
  bool_decide (Output.status o = pending)
  && negb (bool_decide (Output.id o ∈ P)).

Definition pendingOutputs (s : App) : list Output.t :=
  List.filter (isPendingOutput (processingIds s)) (outputs s).

Definition availableSlots (s : App) : Z :=
  API_CONCURRENCY_LIMIT - Z.of_nat (size (processingIds s)).

Definition itemsToProcess (s : App) : list Output.t :=
  slice0 (pendingOutputs s) (availableSlots s).

Definition hasPending (s : App) : bool :=
  existsb (λ o, bool_decide (Output.status o = pending)) (outputs s).

Definition missingText : string := "Missing image or prompt.".

Definition markGenerating (jid : Z) (o : Output.t) : Output.t :=
  if Output.id o =? jid then Output.withStatus generating o else o.

Definition markMissing (jid : Z) (o : Output.t) : Output.t :=
  if Output.id o =? jid
  then Output.withStatusError error (Some missingText) o else o.

(** [prompts.find(p => p.id === promptId)?.text || ''], or the vector prompt. *)
Definition promptTextFor (s : App) (outputToProcess : Output.t) : string :=
  match currentMode s with
  | vector => vectorPrompt s
  | matrix =>
      match List.find (λ p, Prompt.id p =? Output.promptId outputToProcess)
                      (prompts s) with
      | Some p => Prompt.text p
      | None => ""
      end
  end.

Definition sourceImageFor (s : App) (outputToProcess : Output.t)
    : option UploadedImage.t :=
  List.find (λ i, UploadedImage.id i =? Output.sourceImageId outputToProcess)
            (uploadedImages s).

(** The part of [runGeneration] that runs before its first [await]: either
    the job is marked as missing its input and leaves the in-flight set, or
    the external call is started. *)
Definition runGeneration (outputToProcess : Output.t) (s : App) : App :=
  let jid := Output.id outputToProcess in
  let promptText := promptTextFor s outputToProcess in
  match sourceImageFor s outputToProcess with
  | Some sourceImage =>
      if String.eqb promptText ""
      then setProcessingIds (λ P, P ∖ {[jid]})
             (setOutputs (fmap (markMissing jid)) s)
      else setCalls
             (λ cs, cs ++ [mkCall jid (UploadedImage.base64Data sourceImage)
                                  promptText]) s
  | None =>
      setProcessingIds (λ P, P ∖ {[jid]})
        (setOutputs (fmap (markMissing jid)) s)
  end.

(** The body of [itemsToProcess.forEach]. *)
Definition dispatch (s : App) (outputToProcess : Output.t) : App :=
  let jid := Output.id outputToProcess in
  runGeneration outputToProcess
    (setOutputs (fmap (markGenerating jid))
       (setProcessingIds (λ P, {[jid]} ∪ P) s)).

Definition schedulerEffect (s : App) : App :=
  if negb (isGenerating s) then s
  else
    let items := itemsToProcess s in
    if (length items =? 0)%nat && (size (processingIds s) =? 0)%nat then
      if negb (hasPending s) then setIsGenerating false s else s
    else fold_left dispatch items s.

(** ** Settlement of a dispatched call *)

Inductive Settlement :=
| Resolved (imageUrl : string)
| Rejected (message : string).

Definition completeOutput (jid : Z) (imageUrl : string) (o : Output.t)
    : Output.t :=
  if (Output.id o =? jid) && bool_decide (Output.status o = generating)
  then Output.withResult complete (Some imageUrl) None o else o.

Definition failOutput (jid : Z) (message : string) (o : Output.t) : Output.t :=
  if Output.id o =? jid
  then Output.withStatusError error (Some message) o else o.

(** What the [try] / [catch] / [finally] of [runGeneration] does once the
    call made for job [jid] settles. *)
Definition applySettlement (jid : Z) (r : Settlement) (s : App) : App :=
  let s1 :=
    match r with
    | Resolved imageUrl => setOutputs (fmap (completeOutput jid imageUrl)) s
    | Rejected message => setOutputs (fmap (failOutput jid message)) s
    end in
  setProcessingIds (λ P, P ∖ {[jid]}) s1.

(** The [k]-th outstanding call settles with [r]; nothing happens when there
    is no such call. *)
Definition settle (k : nat) (r : Settlement) (s : App) : App :=
  match calls s !! k with
  | Some c => applySettlement (callJob c) r (setCalls (delete k) s)
  | None => s
  end.

(** ** The remaining handlers *)

(** [reader.onload] of [handleFilesSelected], for one file. *)
Definition fileLoaded (base64Data : string) (s : App) : App :=
  setNextId (nextId s + 1)
    (setUploadedImages
       (λ prev, prev ++ [UploadedImage.mk (nextId s) base64Data]) s).

Definition handleClearUploads (s : App) : App :=
  setOutputs (λ _, []) (setUploadedImages (λ _, []) s).

Definition handleRemoveUpload (iid : Z) (s : App) : App :=
  setUploadedImages
    (List.filter (λ img, negb (UploadedImage.id img =? iid))) s.

Definition handleAddPrompt (title text : string) (s : App) : App :=
  setNextId (nextId s + 1)
    (setPrompts (λ prev, prev ++ [Prompt.mk (nextId s) title text]) s).

Definition handleRemovePrompt (pid : Z) (s : App) : App :=
  setPrompts (List.filter (λ p, negb (Prompt.id p =? pid))) s.

Definition handleModeChange (m : Mode) (s : App) : App :=
  setOutputs (λ _, []) (setCurrentMode m s).

(** ** Runs of the component *)

Inductive Event :=
| EGenerate
| ECancel
| EEffect
| ESettle (k : nat) (r : Settlement)
| EFileLoaded (base64Data : string)
| EClearUploads
| ERemoveUpload (iid : Z)
| EAddPrompt (title text : string)
| ERemovePrompt (pid : Z)
| EVectorPromptChange (v : string)
| ERegenerate (jid : Z)
| EModeChange (m : Mode).

Definition step (s : App) (e : Event) : App :=
  match e with
  | EGenerate => (handleGenerate s).1
  | ECancel => handleCancel s
  | EEffect => schedulerEffect s
  | ESettle k r => settle k r s
  | EFileLoaded d => fileLoaded d s
  | EClearUploads => handleClearUploads s
  | ERemoveUpload iid => handleRemoveUpload iid s
  | EAddPrompt t x => handleAddPrompt t x s
  | ERemovePrompt pid => handleRemovePrompt pid s
  | EVectorPromptChange v => setVectorPrompt v s
  | ERegenerate jid => handleRegenerate jid s
  | EModeChange m => handleModeChange m s
  end.

Definition run (es : list Event) : App := fold_left step es initialApp.

Inductive reachable : App → Prop :=
| reachable_init : reachable initialApp
| reachable_step s e : reachable s → reachable (step s e).

(** * Vocabulary of the properties *)

(** The condition under which the effect stops the run. *)
Definition drained (s : App) : Prop :=
  itemsToProcess s = []
  ∧ processingIds s = ∅
  ∧ ∀ o, o ∈ outputs s → Output.status o ≠ pending.

(** The build precondition of the specification fails. *)
Definition preconditionViolated (s : App) : Prop :=
  uploadedImages s = []
  ∨ (currentMode s = vector ∧ trim (vectorPrompt s) = ""%string)
  ∨ (currentMode s = matrix ∧ prompts s = []).

(** Jobs are compared by id. *)
Definition idLt (a b : Output.t) : Prop := Output.id a < Output.id b.

(** The jobs of one image, numbered from [n]: what the inner loop appends. *)
Fixpoint rowOutputs (image : UploadedImage.t) (ps : list Prompt.t) (n : Z)
    : list Output.t :=
  match ps with
  | [] => []
  | p :: ps' => newOutput n image p :: rowOutputs image ps' (n + 1)
  end.

(** The rows of all images, one after the other: what the outer loop
    appends. *)
Fixpoint matrixOutputs (images : list UploadedImage.t) (ps : list Prompt.t)
    (n : Z) : list Output.t :=
  match images with
  | [] => []
  | image :: rest =>
      rowOutputs image ps n
        ++ matrixOutputs rest ps (n + Z.of_nat (length ps))
  end.

(** Every job of the matrix is a fresh pending job whose id lies in the
    block of ids handed out by the build. *)
Definition freshJob (lo hi : Z) (o : Output.t) : Prop :=
  Output.status o = pending ∧ Output.imageUrl o = None
  ∧ Output.error o = None ∧ lo ≤ Output.id o < hi.

(** A job that is pending or generating carries no result and no error. *)
Definition cleanIfActive (o : Output.t) : Prop :=
  Output.status o = pending ∨ Output.status o = generating →
  Output.imageUrl o = None ∧ Output.error o = None.

(** The job list is in strictly increasing id order, below the id counter,
    and its active jobs are clean. *)
Record wfJobs (l : list Output.t) (n : Z) : Prop := mkWfJobs {
  wf_sorted : StronglySorted idLt l;
  wf_below : ∀ o, o ∈ l → Output.id o < n;
  wf_clean : ∀ o, o ∈ l → cleanIfActive o
}.

Definition jobsWellFormed (s : App) : Prop := wfJobs (outputs s) (nextId s).

(** The in-flight set respects the ceiling. *)
Definition inFlightBounded (s : App) : Prop :=
  Z.of_nat (size (processingIds s)) ≤ API_CONCURRENCY_LIMIT.

(** Runs used as concrete inputs below. *)
Definition oneJobDispatched : list Event :=
  [EFileLoaded "data"; EVectorPromptChange "p"; EGenerate; EEffect].

Definition threeJobsBuilt : list Event :=
  [EFileLoaded "a"; EFileLoaded "b"; EFileLoaded "c";
   EVectorPromptChange "p"; EGenerate].

Definition matrixInputs : list Event :=
  [EModeChange matrix; EFileLoaded "a"; EFileLoaded "b";
   EAddPrompt "t1" "x1"; EAddPrompt "t2" "x2"; EAddPrompt "t3" "x3"].

Definition matrixRunning : list Event :=
  [EModeChange matrix; EFileLoaded "a"; EAddPrompt "t" "x"; EGenerate;
   EFileLoaded "b"].

(** Case analysis on the synchronous part of [runGeneration]. *)
Ltac runGeneration_cases s o :=
  unfold runGeneration;
  destruct (sourceImageFor s o) as [?sourceImage |];
  [destruct (String.eqb (promptTextFor s o) "") |].

(** * The rest of the component *)

(** ** [reader.onload]: the payload of a data URL *)



(** ** The theme cells *)

Module ThemeModel.

Definition storageKey : string := "drexbanana-theme".

(** The [theme] cell, [localStorage] and [document.body.className].  The
    cell holds a string: the value read from the storage is cast to [Theme]
    without a check. *)
Record t := mk {
  theme : string;
  localStorage : gmap string string;
  bodyClassName : string
}.

(** The effect that depends on [theme]. *)
Definition themeEffect (st : t) : t :=
  mk (theme st)
     (<[storageKey := theme st]> (localStorage st))
     (theme st +:+ "-mode antialiased").

(** What the effect without dependencies passes to [setTheme], if
    anything: a saved value that is not the empty string. *)
Definition savedTheme (storage : gmap string string) : option string :=
  match storage !! storageKey with
  | Some saved => if String.eqb saved "" then None else Some saved
  | None => None
  end.

(** Mounting the component over a given storage: the first render has
    theme "light"; both effects run, in the order of the source, on that
    render; if the first one has set another theme, the component renders
    again and the second effect runs for the new theme. *)
Definition mount (storage : gmap string string) : t :=
  let st1 := themeEffect (mk "light" storage "") in
  match savedTheme storage with
  | Some saved =>
      if String.eqb saved "light" then st1
      else themeEffect (mk saved (localStorage st1) (bodyClassName st1))
  | None => st1
  end.

(** [onThemeToggle], followed by the effect of the render it causes. *)
Definition toggle (st : t) : t :=
  themeEffect
    (mk (if String.eqb (theme st) "light" then "dark" else "light")
        (localStorage st) (bodyClassName st)).

End ThemeModel.

(** * Further vocabulary *)

(** The constant [promptsToUse] of [handleGenerate]. *)
Definition promptsToUse (s : App) : list Prompt.t :=
  match currentMode s with
  | vector => [Prompt.mk (-1) "Vector" (vectorPrompt s)]
  | matrix => prompts s
  end.

(** [handleGenerate] passes its two guards. *)
Definition buildReady (s : App) : Prop :=
  isGenerating s = false
  ∧ uploadedImages s ≠ []
  ∧ ((currentMode s = vector ∧ trim (vectorPrompt s) ≠ ""%string)
     ∨ (currentMode s = matrix ∧ prompts s ≠ [])).

Definition imageIds (s : App) : list Z :=
  UploadedImage.id <$> uploadedImages s.

Definition promptIds (s : App) : list Z := Prompt.id <$> prompts s.

Definition outputIds (s : App) : list Z := Output.id <$> outputs s.

(** Ids handed out by a counter that now stands at [n]: in strictly
    increasing order, non-negative and below [n]. *)
Definition allocated (n : Z) (l : list Z) : Prop :=
  StronglySorted Z.lt l ∧ ∀ x, x ∈ l → 0 ≤ x < n.

(** Images, prompts and jobs draw their ids from one counter: no id occurs
    twice, neither within a kind nor across kinds. *)
Record idsDistinct (s : App) : Prop := mkIdsDistinct {
  ids_images : allocated (nextId s) (imageIds s);
  ids_prompts : allocated (nextId s) (promptIds s);
  ids_outputs : allocated (nextId s) (outputIds s);
  ids_image_prompt : ∀ x, x ∈ imageIds s → x ∉ promptIds s;
  ids_image_output : ∀ x, x ∈ imageIds s → x ∉ outputIds s;
  ids_prompt_output : ∀ x, x ∈ promptIds s → x ∉ outputIds s
}.

(** Every outstanding call was made for a job id below the counter. *)
Definition callsBelow (s : App) : Prop :=
  ∀ c, c ∈ calls s → callJob c < nextId s.

(** A generating job occupies a slot and has an outstanding call. *)
Definition generatingTracked (s : App) : Prop :=
  ∀ o, o ∈ outputs s → Output.status o = generating →
       Output.id o ∈ processingIds s
       ∧ ∃ c, c ∈ calls s ∧ callJob c = Output.id o.

Definition generatingOutputs (s : App) : list Output.t :=
  List.filter (λ o, bool_decide (Output.status o = generating)) (outputs s).

(** The two outcomes of one dispatch of job [o] from state [s]. *)
Definition dispatchStarted (s : App) (o : Output.t) (c : Call) : App :=
  setCalls (λ cs, cs ++ [c])
    (setOutputs (fmap (markGenerating (Output.id o)))
       (setProcessingIds (λ P, {[Output.id o]} ∪ P) s)).

Definition dispatchMissing (s : App) (o : Output.t) : App :=
  setProcessingIds (λ P, P ∖ {[Output.id o]})
    (setOutputs (fmap (markMissing (Output.id o)))
       (setOutputs (fmap (markGenerating (Output.id o)))
          (setProcessingIds (λ P, {[Output.id o]} ∪ P) s))).

(** The id [x] is carried by an image, a prompt or a job of [s]. *)
Definition inUse (x : Z) (s : App) : Prop :=
  x ∈ imageIds s ∨ x ∈ promptIds s ∨ x ∈ outputIds s.

(** * Properties *)

(** ** Cancellation *)

Lemma cancelOutput_active (o : Output.t) :
  Output.status o = pending ∨ Output.status o = generating →
  cancelOutput o = Output.withStatusError error (Some cancelledText) o.
Proof. unfold cancelOutput. intros [-> | ->]; reflexivity. Qed.

Lemma cancelOutput_terminal (o : Output.t) :
  Output.status o = complete ∨ Output.status o = error →
  cancelOutput o = o.
Proof. unfold cancelOutput. intros [-> | ->]; reflexivity. Qed.

(** C4. After [handleCancel] the flag is off and the in-flight set is empty;
    the job list keeps its length and its order, every job that was pending
    or generating now has status error with the message "Cancelled by user."
    (its other fields are kept), and every job that was complete or in error
    is the same record as before. *)
Theorem handleCancel_spec (s : App) :
  isGenerating (handleCancel s) = false
  ∧ processingIds (handleCancel s) = ∅
  ∧ length (outputs (handleCancel s)) = length (outputs s)
  ∧ ∀ (i : nat) (o : Output.t), outputs s !! i = Some o →
      ∃ o', outputs (handleCancel s) !! i = Some o'
        ∧ (Output.status o = pending ∨ Output.status o = generating →
             Output.status o' = error
             ∧ Output.error o' = Some "Cancelled by user."%string
             ∧ Output.id o' = Output.id o
             ∧ Output.sourceImageId o' = Output.sourceImageId o
             ∧ Output.promptId o' = Output.promptId o
             ∧ Output.imageUrl o' = Output.imageUrl o)
        ∧ (Output.status o = complete ∨ Output.status o = error → o' = o).
Proof.
  repeat split; simpl.
  - apply length_fmap.
  - intros i o Hi. exists (cancelOutput o). split.
    + rewrite list_lookup_fmap, Hi. reflexivity.
    + split; intros Hst.
      * rewrite cancelOutput_active by assumption. repeat split.
      * apply cancelOutput_terminal; assumption.
Qed.

(** ** Regeneration *)

Lemma regenerateOutput_same (jid : Z) (o : Output.t) :
  Output.id o = jid →
  regenerateOutput jid o = Output.withResult pending None None o.
Proof. unfold regenerateOutput. intros ->. rewrite Z.eqb_refl. reflexivity. Qed.

Lemma regenerateOutput_other (jid : Z) (o : Output.t) :
  Output.id o ≠ jid → regenerateOutput jid o = o.
Proof.
  unfold regenerateOutput. intros Hne.
  destruct (Z.eqb_spec (Output.id o) jid); [contradiction | reflexivity].
Qed.

Lemma handleRegenerate_outputs (jid : Z) (s : App) :
  outputs (handleRegenerate jid s) = regenerateOutput jid <$> outputs s.
Proof. unfold handleRegenerate. destruct (isGenerating s); reflexivity. Qed.

Lemma handleRegenerate_flag (jid : Z) (s : App) :
  isGenerating (handleRegenerate jid s) = true.
Proof.
  unfold handleRegenerate. destruct (isGenerating s) eqn:E; simpl; auto.
Qed.

(** C8. [handleRegenerate jid] on a job with id [jid] whose status is
    complete or error puts it back to pending with no result and no error
    message (id, image and prompt are kept); every job with another id is
    left as it is; the flag is true afterwards, so it was turned on if it
    was off. *)
Theorem handleRegenerate_terminal (jid : Z) (s : App) (i : nat) (o : Output.t) :
  outputs s !! i = Some o →
  Output.id o = jid →
  Output.status o = complete ∨ Output.status o = error →
  (∃ o', outputs (handleRegenerate jid s) !! i = Some o'
     ∧ Output.status o' = pending
     ∧ Output.imageUrl o' = None
     ∧ Output.error o' = None
     ∧ Output.id o' = Output.id o
     ∧ Output.sourceImageId o' = Output.sourceImageId o
     ∧ Output.promptId o' = Output.promptId o)
  ∧ (∀ (k : nat) (p : Output.t), outputs s !! k = Some p →
       Output.id p ≠ jid → outputs (handleRegenerate jid s) !! k = Some p)
  ∧ length (outputs (handleRegenerate jid s)) = length (outputs s)
  ∧ isGenerating (handleRegenerate jid s) = true.
Proof.
  intros Hi Hid _. rewrite handleRegenerate_outputs.
  split; [| split; [| split]].
  - exists (Output.withResult pending None None o).
    rewrite list_lookup_fmap, Hi. simpl.
    rewrite regenerateOutput_same by assumption. repeat split.
  - intros k p Hk Hne. rewrite list_lookup_fmap, Hk. simpl.
    rewrite regenerateOutput_other by assumption. reflexivity.
  - apply length_fmap.
  - apply handleRegenerate_flag.
Qed.

(** C10. [handleRegenerate jid] with an id that no job carries leaves the
    job list as it is and still leaves the flag true. *)
Theorem handleRegenerate_unknown_id (jid : Z) (s : App) :
  (∀ o, o ∈ outputs s → Output.id o ≠ jid) →
  outputs (handleRegenerate jid s) = outputs s
  ∧ isGenerating (handleRegenerate jid s) = true.
Proof.
  intros Hfresh. split; [| apply handleRegenerate_flag].
  rewrite handleRegenerate_outputs.
  induction (outputs s) as [| o l IH]; [reflexivity |].
  simpl. rewrite regenerateOutput_other by (apply Hfresh; left).
  f_equal. apply IH. intros p Hp. apply Hfresh. right. exact Hp.
Qed.

(** ** The scheduler effect: what one dispatch touches *)

Lemma dispatch_isGenerating (s : App) (o : Output.t) :
  isGenerating (dispatch s o) = isGenerating s.
Proof.
  unfold dispatch.
  match goal with |- context [runGeneration o ?s'] => runGeneration_cases s' o end;
    reflexivity.
Qed.

Lemma fold_dispatch_isGenerating (items : list Output.t) (s : App) :
  isGenerating (fold_left dispatch items s) = isGenerating s.
Proof.
  revert s. induction items as [| o items IH]; intros s; simpl; [reflexivity |].
  rewrite IH. apply dispatch_isGenerating.
Qed.

Lemma hasPending_false (s : App) :
  hasPending s = false ↔ ∀ o, o ∈ outputs s → Output.status o ≠ pending.
Proof.
  unfold hasPending. induction (outputs s) as [| p l IH]; simpl.
  - split; [| reflexivity]. intros _ o Ho. inversion Ho.
  - rewrite orb_false_iff, IH, bool_decide_eq_false. split.
    + intros [Hp Hl] o Ho. inversion Ho; subst; auto.
    + intros H. split; [apply H; left | intros o Ho; apply H; right; exact Ho].
Qed.

Lemma processingIds_size_0 (s : App) :
  size (processingIds s) = 0%nat ↔ processingIds s = ∅.
Proof.
  split; intros H.
  - apply size_empty_inv in H. apply leibniz_equiv. exact H.
  - rewrite H. apply size_empty.
Qed.

(** C9. A re-evaluation of the scheduler (the effect, run while the flag is
    on) turns the flag off exactly when nothing is admitted, the in-flight
    set is empty and no job is pending; in every other case the flag is
    still on afterwards. *)
Theorem schedulerEffect_stops_iff_drained (s : App) :
  isGenerating s = true →
  (isGenerating (schedulerEffect s) = false ↔ drained s)
  ∧ (¬ drained s → isGenerating (schedulerEffect s) = true).
Proof.
  intros Hon.
  assert (Hiff : isGenerating (schedulerEffect s) = false ↔ drained s).
  { unfold schedulerEffect, drained. rewrite Hon. simpl.
    destruct (itemsToProcess s) as [| o items] eqn:Hitems; simpl.
    - destruct (size (processingIds s)) as [| n] eqn:Hsize; simpl.
      + apply (proj1 (processingIds_size_0 s)) in Hsize.
        destruct (hasPending s) eqn:Hp; simpl.
        * rewrite Hon. split; [discriminate |].
          intros (_ & _ & Hnone).
          apply (proj2 (hasPending_false s)) in Hnone. congruence.
        * pose proof (proj1 (hasPending_false s) Hp) as Hnone. split; auto.
      + rewrite Hon. split; [discriminate |].
        intros (_ & Hempty & _).
        apply (proj2 (processingIds_size_0 s)) in Hempty. congruence.
    - rewrite fold_dispatch_isGenerating, dispatch_isGenerating, Hon.
      split; [discriminate |]. intros (Hnil & _). discriminate. }
  split; [exact Hiff |].
  intros Hnot. destruct (isGenerating (schedulerEffect s)) eqn:E; [reflexivity |].
  exfalso. apply Hnot, Hiff. reflexivity.
Qed.

(** ** Input validation of [handleGenerate] *)

(** C7, as the code has it.  When the build precondition is violated,
    [handleGenerate] returns the state it was given: no job is created, the
    job list, the flag and the id counter are unchanged (a flag that was off
    stays off).  The validation failure is reported, by one alert, when at
    least one image is present and no generation is running. *)
Theorem handleGenerate_invalid (s : App) :
  preconditionViolated s →
  (handleGenerate s).1 = s
  ∧ (isGenerating s = false → isGenerating (handleGenerate s).1 = false)
  ∧ (isGenerating s = false → uploadedImages s ≠ [] →
       (handleGenerate s).2 = [alertText]).
Proof.
  intros Hbad. unfold handleGenerate.
  destruct (isGenerating s) eqn:Hgen; simpl.
  { repeat split; intros; congruence. }
  destruct (uploadedImages s) as [| img imgs] eqn:Himgs; simpl.
  { repeat split; intros; congruence. }
  assert (Hnotready :
    negb (bool_decide (currentMode s = vector)
          && negb (String.eqb (trim (vectorPrompt s)) ""))
    && negb (bool_decide (currentMode s = matrix)
             && (0 <? length (prompts s))%nat) = true).
  { destruct Hbad as [Hno | [[Hm Ht] | [Hm Hp]]]; [congruence | |].
    - rewrite Hm, Ht. reflexivity.
    - rewrite Hm, Hp. reflexivity. }
  rewrite Hnotready. simpl. repeat split; intros; congruence.
Qed.

(** ** The job matrix built by [handleGenerate] *)

Lemma fold_pushOutput (image : UploadedImage.t) (ps : list Prompt.t)
    (acc : list Output.t * Z) :
  fold_left (pushOutput image) ps acc
  = (acc.1 ++ rowOutputs image ps acc.2, acc.2 + Z.of_nat (length ps)).
Proof.
  revert acc. induction ps as [| p ps IH]; intros [l n]; simpl.
  - rewrite app_nil_r, Z.add_0_r. reflexivity.
  - rewrite IH. simpl. rewrite <- app_assoc. simpl. f_equal. lia.
Qed.

Lemma fold_rows (images : list UploadedImage.t) (ps : list Prompt.t)
    (acc : list Output.t * Z) :
  fold_left (λ acc image, fold_left (pushOutput image) ps acc) images acc
  = (acc.1 ++ matrixOutputs images ps acc.2,
     acc.2 + Z.of_nat (length images * length ps)).
Proof.
  revert acc. induction images as [| image rest IH]; intros [l n]; simpl.
  - rewrite app_nil_r, Z.add_0_r. reflexivity.
  - rewrite fold_pushOutput, IH. simpl. rewrite <- app_assoc.
    f_equal. lia.
Qed.

Lemma buildOutputs_matrix (images : list UploadedImage.t)
    (ps : list Prompt.t) (n : Z) :
  buildOutputs images ps n
  = (matrixOutputs images ps n, n + Z.of_nat (length images * length ps)).
Proof. unfold buildOutputs. rewrite fold_rows. reflexivity. Qed.

Lemma rowOutputs_length (image : UploadedImage.t) (ps : list Prompt.t) (n : Z) :
  length (rowOutputs image ps n) = length ps.
Proof. revert n. induction ps; intros n; simpl; [| rewrite IHps]; reflexivity. Qed.

Lemma matrixOutputs_length (images : list UploadedImage.t)
    (ps : list Prompt.t) (n : Z) :
  length (matrixOutputs images ps n) = (length images * length ps)%nat.
Proof.
  revert n. induction images as [| image rest IH]; intros n; simpl.
  - reflexivity.
  - rewrite length_app, rowOutputs_length, IH. reflexivity.
Qed.

Lemma rowOutputs_lookup (image : UploadedImage.t) (ps : list Prompt.t)
    (n : Z) (j : nat) (p : Prompt.t) :
  ps !! j = Some p →
  rowOutputs image ps n !! j = Some (newOutput (n + Z.of_nat j) image p).
Proof.
  revert n j. induction ps as [| q ps IH]; intros n j Hj; [discriminate |].
  destruct j as [| j]; simpl in *.
  - injection Hj as ->. rewrite Z.add_0_r. reflexivity.
  - rewrite (IH _ _ Hj). do 2 f_equal. lia.
Qed.

Lemma matrixOutputs_lookup (images : list UploadedImage.t)
    (ps : list Prompt.t) (n : Z) (i j : nat)
    (image : UploadedImage.t) (p : Prompt.t) :
  images !! i = Some image → ps !! j = Some p →
  matrixOutputs images ps n !! (i * length ps + j)%nat
  = Some (newOutput (n + Z.of_nat (i * length ps + j)) image p).
Proof.
  revert n i. induction images as [| im rest IH]; intros n i Hi Hj;
    [discriminate |].
  pose proof (lookup_lt_Some _ _ _ Hj) as Hlt.
  destruct i as [| i]; simpl in *.
  - injection Hi as ->. rewrite lookup_app_l by (rewrite rowOutputs_length; lia).
    apply rowOutputs_lookup. exact Hj.
  - rewrite lookup_app_r by (rewrite rowOutputs_length; lia).
    rewrite rowOutputs_length.
    replace (length ps + i * length ps + j - length ps)%nat
      with (i * length ps + j)%nat by lia.
    rewrite (IH _ _ Hi Hj). do 2 f_equal. lia.
Qed.

Lemma rowOutputs_fresh (image : UploadedImage.t) (ps : list Prompt.t)
    (n : Z) (o : Output.t) :
  o ∈ rowOutputs image ps n → freshJob n (n + Z.of_nat (length ps)) o.
Proof.
  revert n. induction ps as [| p ps IH]; intros n Ho; simpl in *.
  - inversion Ho.
  - apply elem_of_cons in Ho as [-> | Ho].
    + unfold freshJob. simpl. repeat split; lia.
    + apply IH in Ho. unfold freshJob in *. intuition lia.
Qed.

Lemma matrixOutputs_fresh (images : list UploadedImage.t)
    (ps : list Prompt.t) (n : Z) (o : Output.t) :
  o ∈ matrixOutputs images ps n →
  freshJob n (n + Z.of_nat (length images * length ps)) o.
Proof.
  revert n. induction images as [| image rest IH]; intros n Ho; simpl in *.
  - inversion Ho.
  - apply elem_of_app in Ho as [Ho | Ho].
    + apply rowOutputs_fresh in Ho. unfold freshJob in *. intuition lia.
    + apply IH in Ho. unfold freshJob in *. intuition lia.
Qed.

Lemma rowOutputs_sorted (image : UploadedImage.t) (ps : list Prompt.t) (n : Z) :
  StronglySorted idLt (rowOutputs image ps n).
Proof.
  revert n. induction ps as [| p ps IH]; intros n; simpl; constructor.
  - apply IH.
  - apply Forall_forall. intros o Ho. apply rowOutputs_fresh in Ho.
    unfold idLt, freshJob in *. simpl. lia.
Qed.

Lemma matrixOutputs_sorted (images : list UploadedImage.t)
    (ps : list Prompt.t) (n : Z) :
  StronglySorted idLt (matrixOutputs images ps n).
Proof.
  revert n. induction images as [| image rest IH]; intros n; simpl.
  - constructor.
  - apply StronglySorted_app_2; [| apply rowOutputs_sorted | apply IH].
    intros a b Ha Hb. apply rowOutputs_fresh in Ha.
    apply matrixOutputs_fresh in Hb. unfold idLt, freshJob in *. lia.
Qed.

Lemma sorted_ids_NoDup (l : list Output.t) :
  StronglySorted idLt l → NoDup (Output.id <$> l).
Proof.
  induction 1 as [| o l Hs IH Hall]; simpl; constructor; [| exact IH].
  intros Hin. apply list_elem_of_fmap in Hin as (p & Hid & Hp).
  rewrite Forall_forall in Hall. specialize (Hall p Hp).
  unfold idLt in Hall. lia.
Qed.

Lemma handleGenerate_builds (s : App) :
  isGenerating s = false →
  currentMode s = matrix →
  uploadedImages s ≠ [] →
  prompts s ≠ [] →
  handleGenerate s
  = (setIsGenerating true
       (setOutputs
          (λ _, matrixOutputs (uploadedImages s) (prompts s) (nextId s))
          (setNextId
             (nextId s
              + Z.of_nat (length (uploadedImages s) * length (prompts s)))
             s)), []).
Proof.
  intros Hoff Hmode Himgs Hps. unfold handleGenerate.
  rewrite Hoff, Hmode, buildOutputs_matrix.
  destruct (uploadedImages s) as [| im ims]; [contradiction |].
  destruct (prompts s) as [| p ps]; [contradiction |].
  reflexivity.
Qed.

(** C5, as the code has it.  In matrix mode, with m >= 1 images, n >= 1
    prompts and no generation running, [handleGenerate] installs exactly
    m * n jobs.  The job at position i * n + j belongs to the i-th image (in
    upload order) and the j-th prompt (in creation order), has the id
    [nextId + (i * n + j)], status pending, no result and no error.  All ids
    are pairwise distinct.  The new job list does not depend on the previous
    one, which is dropped.  The flag is on afterwards. *)
Theorem handleGenerate_matrix (s : App) :
  isGenerating s = false →
  currentMode s = matrix →
  uploadedImages s ≠ [] →
  prompts s ≠ [] →
  let s' := (handleGenerate s).1 in
  let n := length (prompts s) in
  length (outputs s') = (length (uploadedImages s) * n)%nat
  ∧ (∀ (i j : nat) (image : UploadedImage.t) (prompt : Prompt.t),
       uploadedImages s !! i = Some image →
       prompts s !! j = Some prompt →
       outputs s' !! (i * n + j)%nat
       = Some (Output.mk (nextId s + Z.of_nat (i * n + j))
                 (UploadedImage.id image) (Prompt.id prompt)
                 None pending None))
  ∧ (∀ o, o ∈ outputs s' →
       Output.status o = pending ∧ Output.imageUrl o = None
       ∧ Output.error o = None)
  ∧ NoDup (Output.id <$> outputs s')
  ∧ (∀ old : list Output.t,
       outputs (handleGenerate (setOutputs (λ _, old) s)).1 = outputs s')
  ∧ isGenerating s' = true.
Proof.
  intros Hoff Hmode Himgs Hps s' n. subst s' n.
  rewrite (handleGenerate_builds s Hoff Hmode Himgs Hps). simpl.
  split; [apply matrixOutputs_length |].
  split; [intros i j image prompt Hi Hj;
          apply (matrixOutputs_lookup _ _ _ _ _ _ _ Hi Hj) |].
  split.
  { intros o Ho. apply matrixOutputs_fresh in Ho.
    unfold freshJob in Ho. tauto. }
  split; [apply sorted_ids_NoDup, matrixOutputs_sorted |].
  split; [| reflexivity].
  intros old.
  rewrite (handleGenerate_builds (setOutputs (λ _, old) s) Hoff Hmode Himgs Hps).
  reflexivity.
Qed.

(** ** Well-formed job lists *)

Lemma wfJobs_nil (n : Z) : wfJobs [] n.
Proof. split; [constructor | |]; intros o Ho; inversion Ho. Qed.

Lemma wfJobs_mono (l : list Output.t) (n n' : Z) :
  n ≤ n' → wfJobs l n → wfJobs l n'.
Proof.
  intros Hle [Hs Hb Hc]. split; auto.
  intros o Ho. specialize (Hb o Ho). lia.
Qed.

Lemma wfJobs_fmap (f : Output.t → Output.t) (l : list Output.t) (n : Z) :
  (∀ p, Output.id (f p) = Output.id p) →
  (∀ p, p ∈ l → cleanIfActive p → cleanIfActive (f p)) →
  wfJobs l n → wfJobs (f <$> l) n.
Proof.
  intros Hid Hclean [Hs Hb Hc]. split.
  - apply (StronglySorted_fmap f idLt idLt); [| exact Hs].
    unfold idLt. intros x y. rewrite !Hid. auto.
  - intros o Ho. apply list_elem_of_fmap in Ho as (p & -> & Hp).
    rewrite Hid. auto.
  - intros o Ho. apply list_elem_of_fmap in Ho as (p & -> & Hp). auto.
Qed.

Lemma wfJobs_matrix (images : list UploadedImage.t) (ps : list Prompt.t)
    (n : Z) :
  wfJobs (matrixOutputs images ps n)
         (n + Z.of_nat (length images * length ps)).
Proof.
  split.
  - apply matrixOutputs_sorted.
  - intros o Ho. apply matrixOutputs_fresh in Ho. unfold freshJob in Ho. lia.
  - intros o Ho _. apply matrixOutputs_fresh in Ho. unfold freshJob in Ho.
    tauto.
Qed.

(** The pointwise updates of the handlers keep the id of a job. *)
Lemma cancelOutput_id (o : Output.t) :
  Output.id (cancelOutput o) = Output.id o.
Proof.
  unfold cancelOutput.
  destruct (bool_decide _ || bool_decide _); reflexivity.
Qed.

Lemma regenerateOutput_id (jid : Z) (o : Output.t) :
  Output.id (regenerateOutput jid o) = Output.id o.
Proof. unfold regenerateOutput. destruct (_ =? _); reflexivity. Qed.

Lemma markGenerating_id (jid : Z) (o : Output.t) :
  Output.id (markGenerating jid o) = Output.id o.
Proof. unfold markGenerating. destruct (_ =? _); reflexivity. Qed.

Lemma markMissing_id (jid : Z) (o : Output.t) :
  Output.id (markMissing jid o) = Output.id o.
Proof. unfold markMissing. destruct (_ =? _); reflexivity. Qed.

Lemma completeOutput_id (jid : Z) (u : string) (o : Output.t) :
  Output.id (completeOutput jid u o) = Output.id o.
Proof. unfold completeOutput. destruct (_ && _); reflexivity. Qed.

Lemma failOutput_id (jid : Z) (m : string) (o : Output.t) :
  Output.id (failOutput jid m o) = Output.id o.
Proof. unfold failOutput. destruct (_ =? _); reflexivity. Qed.

(** ... and, apart from [markGenerating], keep active jobs clean. *)
Lemma cancelOutput_clean (o : Output.t) :
  cleanIfActive o → cleanIfActive (cancelOutput o).
Proof.
  unfold cancelOutput, cleanIfActive.
  destruct (Output.status o) eqn:E; simpl; rewrite ?E; intuition congruence.
Qed.

Lemma regenerateOutput_clean (jid : Z) (o : Output.t) :
  cleanIfActive o → cleanIfActive (regenerateOutput jid o).
Proof.
  unfold regenerateOutput, cleanIfActive.
  destruct (_ =? _); simpl; auto.
Qed.

Lemma markMissing_clean (jid : Z) (o : Output.t) :
  cleanIfActive o → cleanIfActive (markMissing jid o).
Proof.
  unfold markMissing, cleanIfActive.
  destruct (_ =? _); simpl; intuition congruence.
Qed.

Lemma completeOutput_clean (jid : Z) (u : string) (o : Output.t) :
  cleanIfActive o → cleanIfActive (completeOutput jid u o).
Proof.
  unfold completeOutput, cleanIfActive.
  destruct (_ && _); simpl; intuition congruence.
Qed.

Lemma failOutput_clean (jid : Z) (m : string) (o : Output.t) :
  cleanIfActive o → cleanIfActive (failOutput jid m o).
Proof.
  unfold failOutput, cleanIfActive.
  destruct (_ =? _); simpl; intuition congruence.
Qed.

Lemma markGenerating_clean (jid : Z) (o : Output.t) :
  (Output.id o = jid → Output.status o = pending) →
  cleanIfActive o → cleanIfActive (markGenerating jid o).
Proof.
  unfold markGenerating, cleanIfActive. intros Hp Hc.
  destruct (Z.eqb_spec (Output.id o) jid) as [Heq | Hne]; simpl; auto.
Qed.

(** Sorted lists: sublists obtained by [take] and [filter], and uniqueness
    of ids. *)
Lemma sorted_take (k : nat) (l : list Output.t) :
  StronglySorted idLt l → StronglySorted idLt (take k l).
Proof.
  intros Hs. rewrite <- (take_drop k l) in Hs.
  apply StronglySorted_app in Hs. tauto.
Qed.

Lemma sorted_filter (f : Output.t → bool) (l : list Output.t) :
  StronglySorted idLt l → StronglySorted idLt (List.filter f l).
Proof.
  induction 1 as [| o l Hs IH Hall]; simpl; [constructor |].
  destruct (f o); [| exact IH]. constructor; [exact IH |].
  rewrite Forall_forall in *. intros p Hp. apply Hall.
  apply list_elem_of_In. apply list_elem_of_In in Hp.
  apply filter_In in Hp. tauto.
Qed.

Lemma sorted_id_inj (l : list Output.t) (a b : Output.t) :
  StronglySorted idLt l → a ∈ l → b ∈ l → Output.id a = Output.id b → a = b.
Proof.
  induction 1 as [| o l Hs IH Hall]; intros Ha Hb Hid; [inversion Ha |].
  rewrite Forall_forall in Hall. unfold idLt in Hall.
  apply elem_of_cons in Ha as [-> | Ha]; apply elem_of_cons in Hb as [-> | Hb];
    auto.
  - specialize (Hall b Hb). lia.
  - specialize (Hall a Ha). lia.
Qed.

(** ** Admission: [slice], the admitted jobs, one dispatch *)

Lemma slice0_take {A : Type} (l : list A) (e : Z) :
  0 ≤ e → slice0 l e = take (Z.to_nat e) l.
Proof.
  intros He. unfold slice0.
  destruct (Z.ltb_spec e 0) as [Hneg | _]; [lia |].
  destruct (Z.le_gt_cases e (Z.of_nat (length l))) as [Hle | Hgt].
  - rewrite Z.min_l by exact Hle. reflexivity.
  - rewrite Z.min_r by lia. rewrite Nat2Z.id.
    rewrite !take_ge by lia. reflexivity.
Qed.

Lemma slice0_prefix {A : Type} (l : list A) (e : Z) :
  ∃ k : nat, slice0 l e = take k l.
Proof. unfold slice0. eexists. reflexivity. Qed.

Lemma slice0_length {A : Type} (l : list A) (e : Z) :
  0 ≤ e → Z.of_nat (length (slice0 l e)) ≤ e.
Proof.
  intros He. rewrite slice0_take by exact He. rewrite length_take. lia.
Qed.

Lemma pendingOutputs_elem (s : App) (o : Output.t) :
  o ∈ pendingOutputs s ↔
  o ∈ outputs s ∧ Output.status o = pending
  ∧ Output.id o ∉ processingIds s.
Proof.
  unfold pendingOutputs, isPendingOutput.
  rewrite !list_elem_of_In, filter_In, andb_true_iff, negb_true_iff,
    bool_decide_eq_true, bool_decide_eq_false.
  reflexivity.
Qed.

Lemma itemsToProcess_elem (s : App) (o : Output.t) :
  o ∈ itemsToProcess s → o ∈ pendingOutputs s.
Proof.
  unfold itemsToProcess.
  destruct (slice0_prefix (pendingOutputs s) (availableSlots s)) as [k ->].
  intros Ho. apply elem_of_take in Ho as (i & Hi & _).
  apply list_elem_of_lookup. eauto.
Qed.

Lemma itemsToProcess_sorted (s : App) :
  StronglySorted idLt (outputs s) → StronglySorted idLt (itemsToProcess s).
Proof.
  intros Hs. unfold itemsToProcess.
  destruct (slice0_prefix (pendingOutputs s) (availableSlots s)) as [k ->].
  apply sorted_take, sorted_filter, Hs.
Qed.

Lemma dispatch_nextId (s : App) (o : Output.t) :
  nextId (dispatch s o) = nextId s.
Proof.
  unfold dispatch.
  match goal with |- context [runGeneration o ?s'] => runGeneration_cases s' o end;
    reflexivity.
Qed.

Lemma dispatch_outputs (s : App) (o : Output.t) :
  outputs (dispatch s o) = markGenerating (Output.id o) <$> outputs s
  ∨ outputs (dispatch s o)
    = markMissing (Output.id o)
        <$> (markGenerating (Output.id o) <$> outputs s).
Proof.
  unfold dispatch.
  match goal with |- context [runGeneration o ?s'] => runGeneration_cases s' o end;
    simpl; auto.
Qed.

Lemma dispatch_processingIds (s : App) (o : Output.t) :
  processingIds (dispatch s o) = {[Output.id o]} ∪ processingIds s
  ∨ processingIds (dispatch s o)
    = ({[Output.id o]} ∪ processingIds s) ∖ {[Output.id o]}.
Proof.
  unfold dispatch.
  match goal with |- context [runGeneration o ?s'] => runGeneration_cases s' o end;
    simpl; auto.
Qed.

Lemma size_delete (j : Z) (P : gset Z) : (size (P ∖ {[j]}) ≤ size P)%nat.
Proof. apply subseteq_size, subseteq_difference_l. reflexivity. Qed.

Lemma size_add (j : Z) (P : gset Z) : (size ({[j]} ∪ P) ≤ S (size P))%nat.
Proof.
  rewrite size_union_alt, size_singleton.
  pose proof (size_delete j P). lia.
Qed.

Lemma dispatch_size (s : App) (o : Output.t) :
  (size (processingIds (dispatch s o)) ≤ S (size (processingIds s)))%nat.
Proof.
  destruct (dispatch_processingIds s o) as [-> | ->].
  - apply size_add.
  - etransitivity; [apply size_delete | apply size_add].
Qed.

Lemma fold_dispatch_size (items : list Output.t) (s : App) :
  (size (processingIds (fold_left dispatch items s))
   ≤ size (processingIds s) + length items)%nat.
Proof.
  revert s. induction items as [| o items IH]; intros s; simpl; [lia |].
  specialize (IH (dispatch s o)). pose proof (dispatch_size s o). lia.
Qed.

(** ** The in-flight set never exceeds the ceiling *)

Lemma itemsToProcess_length (s : App) :
  inFlightBounded s →
  Z.of_nat (length (itemsToProcess s))
  ≤ API_CONCURRENCY_LIMIT - Z.of_nat (size (processingIds s)).
Proof.
  intros Hb. unfold itemsToProcess. apply slice0_length.
  unfold availableSlots. unfold inFlightBounded in Hb. lia.
Qed.

Lemma dispatch_prefix_bounded (s : App) (k : nat) :
  inFlightBounded s →
  inFlightBounded (fold_left dispatch (take k (itemsToProcess s)) s).
Proof.
  intros Hb. pose proof (itemsToProcess_length s Hb) as Hlen.
  pose proof (fold_dispatch_size (take k (itemsToProcess s)) s) as Hsize.
  rewrite length_take in Hsize. unfold inFlightBounded in *. lia.
Qed.

Lemma schedulerEffect_bounded (s : App) :
  inFlightBounded s → inFlightBounded (schedulerEffect s).
Proof.
  intros Hb. unfold schedulerEffect.
  destruct (negb (isGenerating s)); [exact Hb |].
  destruct (_ && _).
  - destruct (negb (hasPending s)); exact Hb.
  - rewrite <- (take_ge (itemsToProcess s) (length (itemsToProcess s)))
      at 1 by lia.
    apply dispatch_prefix_bounded, Hb.
Qed.

Lemma settle_bounded (k : nat) (r : Settlement) (s : App) :
  inFlightBounded s → inFlightBounded (settle k r s).
Proof.
  intros Hb. unfold settle. destruct (calls s !! k) as [c |]; [| exact Hb].
  unfold inFlightBounded in *.
  assert (processingIds (applySettlement (callJob c) r (setCalls (delete k) s))
          = processingIds s ∖ {[callJob c]}) as -> by (destruct r; reflexivity).
  pose proof (size_delete (callJob c) (processingIds s)). lia.
Qed.

Lemma handleGenerate_processingIds (s : App) :
  processingIds (handleGenerate s).1 = processingIds s.
Proof.
  unfold handleGenerate.
  destruct (_ || _); [reflexivity |]. destruct (_ && _); reflexivity.
Qed.

Lemma step_bounded (s : App) (e : Event) :
  inFlightBounded s → inFlightBounded (step s e).
Proof.
  intros Hb. destruct e; simpl; auto using schedulerEffect_bounded, settle_bounded.
  - unfold inFlightBounded. rewrite handleGenerate_processingIds. exact Hb.
  - unfold inFlightBounded, handleCancel, setProcessingIds.
    cbn [processingIds]. rewrite size_empty.
    unfold API_CONCURRENCY_LIMIT. lia.
  - unfold handleRegenerate. destruct (negb (isGenerating s)); exact Hb.
Qed.

Lemma reachable_bounded (s : App) : reachable s → inFlightBounded s.
Proof.
  induction 1 as [| s e _ IH].
  - unfold inFlightBounded, initialApp. cbn [processingIds].
    rewrite size_empty. unfold API_CONCURRENCY_LIMIT. lia.
  - apply step_bounded, IH.
Qed.

Lemma run_reachable (es : list Event) : reachable (run es).
Proof.
  unfold run. generalize reachable_init. generalize initialApp.
  induction es as [| e es IH]; intros s Hs; simpl; [exact Hs |].
  apply IH. constructor. exact Hs.
Qed.

(** C3. In every reachable state the in-flight set holds at most
    [API_CONCURRENCY_LIMIT] = 2 ids; a re-evaluation of the scheduler from
    that state admits at most [API_CONCURRENCY_LIMIT - size] jobs; and the
    bound also holds after each single dispatch inside that re-evaluation
    (after the first [k] admitted jobs were dispatched, for every [k]). *)
Theorem inflight_within_ceiling (s : App) :
  reachable s →
  API_CONCURRENCY_LIMIT = 2
  ∧ Z.of_nat (size (processingIds s)) ≤ API_CONCURRENCY_LIMIT
  ∧ Z.of_nat (length (itemsToProcess s))
    ≤ API_CONCURRENCY_LIMIT - Z.of_nat (size (processingIds s))
  ∧ ∀ k : nat,
      Z.of_nat (size (processingIds
                        (fold_left dispatch (take k (itemsToProcess s)) s)))
      ≤ API_CONCURRENCY_LIMIT.
Proof.
  intros Hr. pose proof (reachable_bounded s Hr) as Hb.
  split; [reflexivity |]. split; [exact Hb |].
  split; [apply itemsToProcess_length, Hb |].
  intros k. apply dispatch_prefix_bounded, Hb.
Qed.

(** ** The job list stays well formed *)

Lemma markGenerating_other (jid : Z) (p : Output.t) :
  Output.id p ≠ jid → markGenerating jid p = p.
Proof.
  unfold markGenerating. intros Hne.
  destruct (Z.eqb_spec (Output.id p) jid); [contradiction | reflexivity].
Qed.

Lemma markMissing_other (jid : Z) (p : Output.t) :
  Output.id p ≠ jid → markMissing jid p = p.
Proof.
  unfold markMissing. intros Hne.
  destruct (Z.eqb_spec (Output.id p) jid); [contradiction | reflexivity].
Qed.

Lemma dispatch_other (s : App) (o p : Output.t) :
  p ∈ outputs (dispatch s o) → Output.id p ≠ Output.id o → p ∈ outputs s.
Proof.
  intros Hp Hne. destruct (dispatch_outputs s o) as [E | E]; rewrite E in Hp.
  - apply list_elem_of_fmap in Hp as (q & -> & Hq).
    rewrite markGenerating_id in Hne.
    rewrite markGenerating_other by exact Hne. exact Hq.
  - apply list_elem_of_fmap in Hp as (q' & -> & Hq').
    apply list_elem_of_fmap in Hq' as (q & -> & Hq).
    rewrite markMissing_id, markGenerating_id in Hne.
    rewrite markGenerating_other, markMissing_other by exact Hne. exact Hq.
Qed.

Lemma dispatch_wf (s : App) (o : Output.t) :
  jobsWellFormed s →
  (∀ p, p ∈ outputs s → Output.id p = Output.id o →
        Output.status p = pending) →
  jobsWellFormed (dispatch s o).
Proof.
  intros Hwf Hpend. unfold jobsWellFormed in *. rewrite dispatch_nextId.
  assert (Hg : wfJobs (markGenerating (Output.id o) <$> outputs s) (nextId s)).
  { apply wfJobs_fmap; [apply markGenerating_id | | exact Hwf].
    intros p Hp. apply markGenerating_clean. auto. }
  destruct (dispatch_outputs s o) as [-> | ->]; [exact Hg |].
  apply wfJobs_fmap; [apply markMissing_id | | exact Hg].
  intros p _. apply markMissing_clean.
Qed.

Lemma fold_dispatch_wf (items : list Output.t) (s : App) :
  jobsWellFormed s →
  NoDup (Output.id <$> items) →
  (∀ o p, o ∈ items → p ∈ outputs s → Output.id p = Output.id o →
          Output.status p = pending) →
  jobsWellFormed (fold_left dispatch items s).
Proof.
  revert s. induction items as [| o items IH]; intros s Hwf Hnd Hpend; simpl;
    [exact Hwf |].
  rewrite fmap_cons in Hnd. apply NoDup_cons in Hnd as [Hfresh Hnd].
  apply IH; [| exact Hnd |].
  - apply dispatch_wf; [exact Hwf |].
    intros p Hp Hid. apply (Hpend o p); [left | exact Hp | exact Hid].
  - intros o' p Ho' Hp Hid.
    assert (Hne : Output.id p ≠ Output.id o).
    { intros Heq. apply Hfresh. rewrite <- Heq, Hid.
      apply list_elem_of_fmap. eauto. }
    apply (Hpend o' p); [right; exact Ho' | | exact Hid].
    apply (dispatch_other s o p Hp Hne).
Qed.

Lemma schedulerEffect_wf (s : App) :
  jobsWellFormed s → jobsWellFormed (schedulerEffect s).
Proof.
  intros Hwf. unfold schedulerEffect.
  destruct (negb (isGenerating s)); [exact Hwf |].
  destruct (_ && _).
  - destruct (negb (hasPending s)); exact Hwf.
  - pose proof (wf_sorted _ _ Hwf) as Hs.
    apply fold_dispatch_wf; [exact Hwf | |].
    + apply sorted_ids_NoDup, itemsToProcess_sorted, Hs.
    + intros o p Ho Hp Hid.
      apply itemsToProcess_elem, pendingOutputs_elem in Ho as (Ho & Hst & _).
      rewrite (sorted_id_inj _ p o Hs Hp Ho Hid). exact Hst.
Qed.

Lemma handleGenerate_wf (s : App) :
  jobsWellFormed s → jobsWellFormed (handleGenerate s).1.
Proof.
  intros Hwf. unfold handleGenerate.
  destruct (_ || _); [exact Hwf |]. destruct (_ && _); [exact Hwf |].
  unfold jobsWellFormed. simpl. rewrite buildOutputs_matrix. simpl.
  apply wfJobs_matrix.
Qed.

Lemma settle_wf (k : nat) (r : Settlement) (s : App) :
  jobsWellFormed s → jobsWellFormed (settle k r s).
Proof.
  intros Hwf. unfold settle. destruct (calls s !! k) as [c |]; [| exact Hwf].
  unfold jobsWellFormed in *. destruct r as [u | m]; simpl.
  - apply wfJobs_fmap; [apply completeOutput_id | | exact Hwf].
    intros p _. apply completeOutput_clean.
  - apply wfJobs_fmap; [apply failOutput_id | | exact Hwf].
    intros p _. apply failOutput_clean.
Qed.

Lemma handleRegenerate_wf (jid : Z) (s : App) :
  jobsWellFormed s → jobsWellFormed (handleRegenerate jid s).
Proof.
  intros Hwf. unfold jobsWellFormed in *.
  rewrite handleRegenerate_outputs.
  replace (nextId (handleRegenerate jid s)) with (nextId s)
    by (unfold handleRegenerate; destruct (negb (isGenerating s)); reflexivity).
  apply wfJobs_fmap; [apply regenerateOutput_id | | exact Hwf].
  intros p _. apply regenerateOutput_clean.
Qed.

Lemma step_wf (s : App) (e : Event) :
  jobsWellFormed s → jobsWellFormed (step s e).
Proof.
  intros Hwf. destruct e; simpl;
    auto using handleGenerate_wf, schedulerEffect_wf, settle_wf,
               handleRegenerate_wf.
  - unfold jobsWellFormed in *. simpl.
    apply wfJobs_fmap; [apply cancelOutput_id | | exact Hwf].
    intros p _. apply cancelOutput_clean.
  - unfold jobsWellFormed in *. simpl.
    apply (wfJobs_mono _ (nextId s)); [lia | exact Hwf].
  - apply wfJobs_nil.
  - unfold jobsWellFormed in *. simpl.
    apply (wfJobs_mono _ (nextId s)); [lia | exact Hwf].
  - apply wfJobs_nil.
Qed.

Lemma reachable_wf (s : App) : reachable s → jobsWellFormed s.
Proof.
  induction 1 as [| s e _ IH]; [apply wfJobs_nil | apply step_wf, IH].
Qed.

(** C6. At a re-evaluation of the scheduler in a reachable state (the effect
    runs with the flag on), the jobs it dispatches are the first
    [availableSlots] = [API_CONCURRENCY_LIMIT - size processingIds] elements
    of the list of jobs that are pending and not in the in-flight set.  That
    list is in strictly increasing id order, the order of creation; hence
    every admitted job has a smaller id than every pending job that is left
    waiting. *)
Theorem admission_is_fifo (s : App) :
  reachable s →
  isGenerating s = true →
  let candidates :=
    List.filter
      (λ o, bool_decide (Output.status o = pending)
            && negb (bool_decide (Output.id o ∈ processingIds s)))
      (outputs s) in
  let slots := API_CONCURRENCY_LIMIT - Z.of_nat (size (processingIds s)) in
  itemsToProcess s = take (Z.to_nat slots) candidates
  ∧ (itemsToProcess s ≠ [] →
       schedulerEffect s
       = fold_left dispatch (take (Z.to_nat slots) candidates) s)
  ∧ (itemsToProcess s = [] →
       outputs (schedulerEffect s) = outputs s
       ∧ processingIds (schedulerEffect s) = processingIds s)
  ∧ StronglySorted idLt candidates
  ∧ (∀ a p, a ∈ itemsToProcess s → p ∈ candidates →
            p ∉ itemsToProcess s → Output.id a < Output.id p).
Proof.
  intros Hr Hon candidates slots.
  pose proof (reachable_bounded s Hr) as Hb.
  pose proof (wf_sorted _ _ (reachable_wf s Hr)) as Hs.
  assert (Hitems : itemsToProcess s = take (Z.to_nat slots) candidates).
  { unfold itemsToProcess. apply slice0_take.
    unfold availableSlots. unfold inFlightBounded in Hb. lia. }
  assert (Hcs : StronglySorted idLt candidates) by apply sorted_filter, Hs.
  split; [exact Hitems |]. split; [| split; [| split; [exact Hcs |]]].
  - intros Hne. unfold schedulerEffect. rewrite Hon. simpl.
    rewrite <- Hitems.
    destruct (itemsToProcess s) as [| o items]; [contradiction | reflexivity].
  - intros Hnil. unfold schedulerEffect. rewrite Hon, Hnil. simpl.
    destruct (size (processingIds s) =? 0)%nat; [| auto].
    destruct (negb (hasPending s)); auto.
  - intros a p Ha Hp Hnot. rewrite Hitems in Ha, Hnot.
    rewrite <- (take_drop (Z.to_nat slots) candidates) in Hcs, Hp.
    apply StronglySorted_app in Hcs as (Hlt & _ & _).
    apply elem_of_app in Hp as [Hp | Hp]; [contradiction |].
    apply (Hlt a p Ha Hp).
Qed.

(** ** Regeneration of a job that is not terminal *)

Lemma cleanIfActive_reset (o : Output.t) :
  Output.status o = pending → cleanIfActive o →
  Output.withResult pending None None o = o.
Proof.
  intros Hst Hc. destruct (Hc (or_introl Hst)) as [Hu He].
  destruct o; simpl in *; subst; reflexivity.
Qed.

Lemma cleanIfActive_generating_reset (o : Output.t) :
  Output.status o = generating → cleanIfActive o →
  Output.withResult pending None None o = Output.withStatus pending o.
Proof.
  intros Hst Hc. destruct (Hc (or_intror Hst)) as [Hu He].
  destruct o; simpl in *; subst; reflexivity.
Qed.

(** C2, as the code has it.  [handleRegenerate] has no status guard.  In a
    reachable state, regenerating a pending job is a no-op on the job set:
    the whole job list is as before.  Regenerating a generating job is not:
    that job goes back to pending, its other fields being kept, and every
    other job is as before. *)
Theorem handleRegenerate_nonterminal (jid : Z) (s : App) (i : nat)
    (o : Output.t) :
  reachable s →
  outputs s !! i = Some o →
  Output.id o = jid →
  (Output.status o = pending →
     outputs (handleRegenerate jid s) = outputs s
     ∧ outputs (handleRegenerate jid s) !! i = Some o)
  ∧ (Output.status o = generating →
       outputs (handleRegenerate jid s)
       = <[i := Output.withStatus pending o]> (outputs s)
       ∧ outputs (handleRegenerate jid s) !! i
         = Some (Output.withStatus pending o)
       ∧ outputs (handleRegenerate jid s) !! i ≠ Some o).
Proof.
  intros Hr Hi Hid.
  pose proof (reachable_wf s Hr) as Hwf.
  assert (Hc : cleanIfActive o).
  { apply (wf_clean _ _ Hwf). apply list_elem_of_lookup. eauto. }
  assert (Hothers : ∀ (k : nat) (p : Output.t),
            outputs s !! k = Some p → k ≠ i → regenerateOutput jid p = p).
  { intros k p Hk Hne. apply regenerateOutput_other. intros Heq. apply Hne.
    apply (NoDup_lookup (Output.id <$> outputs s) k i jid).
    - apply sorted_ids_NoDup, (wf_sorted _ _ Hwf).
    - rewrite list_lookup_fmap, Hk. simpl. congruence.
    - rewrite list_lookup_fmap, Hi. simpl. congruence. }
  rewrite handleRegenerate_outputs. split; intros Hst.
  - assert (Hfix : regenerateOutput jid o = o).
    { rewrite regenerateOutput_same by exact Hid.
      apply cleanIfActive_reset; assumption. }
    split.
    + apply list_eq. intros k. rewrite list_lookup_fmap.
      destruct (decide (k = i)) as [-> | Hne].
      * rewrite Hi. simpl. rewrite Hfix. reflexivity.
      * destruct (outputs s !! k) as [p |] eqn:Hk; simpl; [| reflexivity].
        rewrite (Hothers k p Hk Hne). reflexivity.
    + rewrite list_lookup_fmap, Hi. simpl. rewrite Hfix. reflexivity.
  - assert (Hfix : regenerateOutput jid o = Output.withStatus pending o).
    { rewrite regenerateOutput_same by exact Hid.
      apply cleanIfActive_generating_reset; assumption. }
    split; [| split].
    + apply list_eq. intros k. rewrite list_lookup_fmap.
      destruct (decide (k = i)) as [-> | Hne].
      * rewrite list_lookup_insert_eq by (apply (lookup_lt_Some _ _ _ Hi)).
        rewrite Hi. simpl. rewrite Hfix. reflexivity.
      * rewrite list_lookup_insert_ne by auto.
        destruct (outputs s !! k) as [p |] eqn:Hk; simpl; [| reflexivity].
        rewrite (Hothers k p Hk Hne). reflexivity.
    + rewrite list_lookup_fmap, Hi. simpl. rewrite Hfix. reflexivity.
    + rewrite list_lookup_fmap, Hi. simpl. rewrite Hfix.
      intros Heq. injection Heq as Heq.
      apply (f_equal Output.status) in Heq. simpl in Heq. congruence.
Qed.

(** ** Settlement and the status guard *)

Lemma completeOutput_guard (jid : Z) (u : string) (o : Output.t) :
  Output.status o ≠ generating → completeOutput jid u o = o.
Proof.
  unfold completeOutput. intros Hne.
  rewrite (bool_decide_eq_false_2 _ Hne), andb_false_r. reflexivity.
Qed.

Lemma failOutput_no_guard (jid : Z) (m : string) (o : Output.t) :
  Output.id o = jid →
  failOutput jid m o = Output.withStatusError error (Some m) o.
Proof. unfold failOutput. intros ->. rewrite Z.eqb_refl. reflexivity. Qed.

(** The two settlement paths on the job the call was made for: a resolved
    call leaves a job that is no longer generating as it is, a rejected call
    rewrites the job whatever its status. *)
Lemma settle_resolved_guard (k : nat) (c : Call) (u : string) (s : App)
    (i : nat) (o : Output.t) :
  calls s !! k = Some c →
  outputs s !! i = Some o →
  Output.status o ≠ generating →
  outputs (settle k (Resolved u) s) !! i = Some o.
Proof.
  intros Hk Hi Hst. unfold settle. rewrite Hk. simpl.
  rewrite list_lookup_fmap, Hi. simpl.
  rewrite completeOutput_guard by exact Hst. reflexivity.
Qed.

Lemma settle_rejected_no_guard (k : nat) (c : Call) (m : string) (s : App)
    (i : nat) (o : Output.t) :
  calls s !! k = Some c →
  outputs s !! i = Some o →
  Output.id o = callJob c →
  outputs (settle k (Rejected m) s) !! i
  = Some (Output.withStatusError error (Some m) o).
Proof.
  intros Hk Hi Hid. unfold settle. rewrite Hk. simpl.
  rewrite list_lookup_fmap, Hi. simpl.
  rewrite failOutput_no_guard by exact Hid. reflexivity.
Qed.

(** Three jobs under the ceiling of two: two are admitted, the third one
    after the first settlement; when all calls have resolved the next
    re-evaluation turns the flag off. *)
Example three_jobs_drain :
  let s := run (threeJobsBuilt
                  ++ [EEffect; ESettle 0 (Resolved "u3"); EEffect;
                      ESettle 0 (Resolved "u4"); ESettle 0 (Resolved "u5");
                      EEffect]) in
  Output.status <$> outputs s = [complete; complete; complete]
  ∧ isGenerating s = false
  ∧ processingIds s = ∅.
Proof. vm_compute. repeat split. Qed.

(** C1, at a concrete run.  One image, vector prompt "p", generate, one
    scheduler re-evaluation (job 1 is dispatched), then cancel: job 1 is in
    error with the cancellation message.  If the outstanding call now
    rejects with message "boom", the [catch] branch, which does not test the
    status, replaces the error message of the cancelled job; a call that
    resolves is discarded by the guard of the [try] branch. *)
Theorem rejection_overwrites_cancelled_job :
  let s := run (oneJobDispatched ++ [ECancel]) in
  outputs s
  = [Output.mk 1 0 (-1) None error (Some "Cancelled by user."%string)]
  ∧ outputs (settle 0 (Rejected "boom") s)
    = [Output.mk 1 0 (-1) None error (Some "boom"%string)]
  ∧ outputs (settle 0 (Resolved "url") s) = outputs s.
Proof. vm_compute. repeat split. Qed.

(** Counterexample to C2 as stated: job 1 is generating; regenerating it
    sets it back to pending. *)
Lemma regenerate_resets_generating_job :
  let s := run oneJobDispatched in
  outputs s !! 0%nat = Some (Output.mk 1 0 (-1) None generating None)
  ∧ outputs (handleRegenerate 1 s) !! 0%nat
    = Some (Output.mk 1 0 (-1) None pending None)
  ∧ outputs (handleRegenerate 1 s) ≠ outputs s.
Proof. vm_compute. repeat split. discriminate. Qed.

(** Counterexample to C5 as stated: matrix mode, two images and one prompt,
    but a generation is running; [handleGenerate] returns at its first
    guard, and the job list keeps its single old job instead of 2 * 1 new
    ones. *)
Lemma generate_while_running_builds_nothing :
  let s := run matrixRunning in
  currentMode s = matrix
  ∧ length (uploadedImages s) = 2%nat
  ∧ length (prompts s) = 1%nat
  ∧ isGenerating s = true
  ∧ (handleGenerate s).1 = s
  ∧ length (outputs (handleGenerate s).1) = 1%nat.
Proof. vm_compute. repeat split. Qed.

(** Counterexample to C7 as stated: with no image, [handleGenerate] returns
    at its first guard, before the alert: nothing is reported. *)
Lemma generate_without_images_is_silent :
  uploadedImages initialApp = []
  ∧ isGenerating initialApp = false
  ∧ handleGenerate initialApp = (initialApp, []).
Proof. repeat split. Qed.

(** ** The theorems at concrete runs *)

Lemma handleCancel_spec_witness :
  isGenerating (handleCancel (run oneJobDispatched)) = false
  ∧ processingIds (handleCancel (run oneJobDispatched)) = ∅.
Proof.
  pose proof (handleCancel_spec (run oneJobDispatched)) as (Hflag & Hset & _).
  split; [exact Hflag | exact Hset].
Defined.

Lemma handleRegenerate_terminal_witness :
  let s := run (oneJobDispatched ++ [ECancel]) in
  let o := Output.mk 1 0 (-1) None error (Some "Cancelled by user."%string) in
  outputs s !! 0%nat = Some o
  ∧ Output.status o = error
  ∧ isGenerating s = false
  ∧ isGenerating (handleRegenerate 1 s) = true.
Proof.
  intros s o.
  assert (Hi : outputs s !! 0%nat = Some o) by (vm_compute; reflexivity).
  assert (Hst : Output.status o = complete ∨ Output.status o = error)
    by (right; reflexivity).
  destruct (handleRegenerate_terminal 1 s 0 o Hi eq_refl Hst)
    as (_ & _ & _ & Hflag).
  split; [exact Hi |]. split; [reflexivity |].
  split; [vm_compute; reflexivity | exact Hflag].
Defined.

Lemma handleRegenerate_unknown_id_witness :
  let s := run oneJobDispatched in
  (∀ o, o ∈ outputs s → Output.id o ≠ 7)
  ∧ outputs (handleRegenerate 7 s) = outputs s
  ∧ isGenerating (handleRegenerate 7 s) = true.
Proof.
  intros s.
  assert (Hfresh : ∀ o, o ∈ outputs s → Output.id o ≠ 7).
  { intros o Ho. apply list_elem_of_In in Ho. vm_compute in Ho.
    destruct Ho as [<- | []]. simpl. lia. }
  split; [exact Hfresh | apply (handleRegenerate_unknown_id 7 s Hfresh)].
Defined.

Lemma handleRegenerate_nonterminal_witness :
  let s := run (threeJobsBuilt ++ [EEffect]) in
  let o := Output.mk 3 0 (-1) None generating None in
  let waiting := Output.mk 5 2 (-1) None pending None in
  reachable s
  ∧ outputs s !! 0%nat = Some o
  ∧ outputs s !! 2%nat = Some waiting
  ∧ outputs (handleRegenerate 3 s)
    = <[0%nat := Output.withStatus pending o]> (outputs s)
  ∧ outputs (handleRegenerate 5 s) = outputs s.
Proof.
  intros s o waiting.
  assert (Hr : reachable s) by apply run_reachable.
  assert (Hi : outputs s !! 0%nat = Some o) by (vm_compute; reflexivity).
  assert (Hw : outputs s !! 2%nat = Some waiting)
    by (vm_compute; reflexivity).
  destruct (handleRegenerate_nonterminal 3 s 0 o Hr Hi eq_refl) as [_ Hgen].
  destruct (handleRegenerate_nonterminal 5 s 2 waiting Hr Hw eq_refl)
    as [Hpend _].
  split; [exact Hr |]. split; [exact Hi |]. split; [exact Hw |].
  split; [apply (Hgen eq_refl) | apply (Hpend eq_refl)].
Defined.

Lemma schedulerEffect_stops_iff_drained_witness :
  let s := run (oneJobDispatched ++ [ESettle 0 (Resolved "url")]) in
  isGenerating s = true
  ∧ (isGenerating (schedulerEffect s) = false ↔ drained s).
Proof.
  intros s.
  assert (Hon : isGenerating s = true) by (vm_compute; reflexivity).
  split; [exact Hon | apply (schedulerEffect_stops_iff_drained s Hon)].
Defined.

Lemma handleGenerate_invalid_witness :
  let s := run [EFileLoaded "data"; EVectorPromptChange "  "] in
  preconditionViolated s
  ∧ (handleGenerate s).1 = s
  ∧ (handleGenerate s).2 = [alertText].
Proof.
  intros s.
  assert (Hbad : preconditionViolated s).
  { right. left. split; vm_compute; reflexivity. }
  destruct (handleGenerate_invalid s Hbad) as (Hsame & _ & Halert).
  split; [exact Hbad |]. split; [exact Hsame |].
  apply Halert; [vm_compute; reflexivity | vm_compute; discriminate].
Defined.

Lemma handleGenerate_matrix_witness :
  let s := run matrixInputs in
  isGenerating s = false
  ∧ currentMode s = matrix
  ∧ length (uploadedImages s) = 2%nat
  ∧ length (prompts s) = 3%nat
  ∧ length (outputs (handleGenerate s).1) = (2 * 3)%nat.
Proof.
  intros s.
  assert (Hoff : isGenerating s = false) by (vm_compute; reflexivity).
  assert (Hmode : currentMode s = matrix) by (vm_compute; reflexivity).
  assert (Himgs : uploadedImages s ≠ []) by (vm_compute; discriminate).
  assert (Hps : prompts s ≠ []) by (vm_compute; discriminate).
  destruct (handleGenerate_matrix s Hoff Hmode Himgs Hps) as (Hlen & _).
  split; [exact Hoff |]. split; [exact Hmode |].
  split; [vm_compute; reflexivity |]. split; [vm_compute; reflexivity |].
  exact Hlen.
Defined.

Lemma inflight_within_ceiling_witness :
  let s := run (threeJobsBuilt ++ [EEffect]) in
  reachable s
  ∧ size (processingIds s) = 2%nat
  ∧ Z.of_nat (size (processingIds s)) ≤ API_CONCURRENCY_LIMIT
  ∧ Z.of_nat (length (itemsToProcess s))
    ≤ API_CONCURRENCY_LIMIT - Z.of_nat (size (processingIds s)).
Proof.
  intros s.
  destruct (inflight_within_ceiling s (run_reachable _))
    as (_ & Hsize & Hadmit & _).
  split; [apply run_reachable |]. split; [vm_compute; reflexivity |].
  split; [exact Hsize | exact Hadmit].
Defined.

Lemma admission_is_fifo_witness :
  let s := run threeJobsBuilt in
  reachable s
  ∧ isGenerating s = true
  ∧ Output.id <$> pendingOutputs s = [3; 4; 5]
  ∧ Output.id <$> itemsToProcess s = [3; 4]
  ∧ itemsToProcess s = take 2 (pendingOutputs s).
Proof.
  intros s.
  assert (Hon : isGenerating s = true) by (vm_compute; reflexivity).
  destruct (admission_is_fifo s (run_reachable _) Hon) as (Hitems & _).
  split; [apply run_reachable |]. split; [exact Hon |].
  split; [vm_compute; reflexivity |]. split; [vm_compute; reflexivity |].
  exact Hitems.
Defined.

(** * Further properties of the component *)

(** ** Builds in either mode *)

Lemma handleGenerate_ready (s : App) :
  buildReady s →
  handleGenerate s
  = (setIsGenerating true
       (setOutputs
          (λ _, matrixOutputs (uploadedImages s) (promptsToUse s) (nextId s))
          (setNextId
             (nextId s
              + Z.of_nat (length (uploadedImages s)
                          * length (promptsToUse s)))
             s)), []).
Proof.
  intros (Hoff & Himgs & Hready). unfold handleGenerate, promptsToUse.
  rewrite Hoff, buildOutputs_matrix.
  destruct (uploadedImages s) as [| im ims]; [contradiction |]. simpl.
  destruct Hready as [[Hm Ht] | [Hm Hp]]; rewrite Hm.
  - apply String.eqb_neq in Ht. rewrite Ht. reflexivity.
  - destruct (prompts s) as [| p ps]; [contradiction | reflexivity].
Qed.

(** X1.  Vector mode.  With at least one image, a vector prompt that is not
    blank and no generation running, [handleGenerate] installs one job per
    image, in upload order: the job of the i-th image has the id
    [nextId + i], the prompt id -1, status pending, no result and no error.
    The counter advances by the number of images, the flag is on and no
    alert is raised. *)
Theorem handleGenerate_vector (s : App) :
  isGenerating s = false →
  currentMode s = vector →
  uploadedImages s ≠ [] →
  trim (vectorPrompt s) ≠ ""%string →
  let s' := (handleGenerate s).1 in
  length (outputs s') = length (uploadedImages s)
  ∧ (∀ (i : nat) (image : UploadedImage.t),
       uploadedImages s !! i = Some image →
       outputs s' !! i
       = Some (Output.mk (nextId s + Z.of_nat i) (UploadedImage.id image)
                 (-1) None pending None))
  ∧ nextId s' = nextId s + Z.of_nat (length (uploadedImages s))
  ∧ isGenerating s' = true
  ∧ (handleGenerate s).2 = [].
Proof.
  intros Hoff Hmode Himgs Htext s'. subst s'.
  assert (Hready : buildReady s) by (unfold buildReady; auto).
  rewrite (handleGenerate_ready s Hready). unfold promptsToUse.
  rewrite Hmode. simpl.
  split; [rewrite matrixOutputs_length; simpl; lia |].
  split; [| split; [f_equal; lia | auto]].
  intros i image Hi.
  pose proof (matrixOutputs_lookup (uploadedImages s)
                [Prompt.mk (-1) "Vector" (vectorPrompt s)] (nextId s)
                i 0 image _ Hi eq_refl) as Hlook.
  simpl in Hlook.
  replace (i * 1 + 0)%nat with i in Hlook by lia. exact Hlook.
Qed.

(** ** The payload of a data URL *)




(** ** The theme *)

(** X18.  A theme chosen with the toggle is one of "light" and "dark", and the
    next mount over the storage it left restores it: the mounted component
    is in the very state the toggle produced (theme, storage and class of
    the body). *)
Theorem theme_toggle_persists (st : ThemeModel.t) :
  (ThemeModel.theme (ThemeModel.toggle st) = "light"%string
   ∨ ThemeModel.theme (ThemeModel.toggle st) = "dark"%string)
  ∧ ThemeModel.mount (ThemeModel.localStorage (ThemeModel.toggle st))
    = ThemeModel.toggle st.
Proof.
  unfold ThemeModel.toggle, ThemeModel.mount, ThemeModel.savedTheme,
    ThemeModel.themeEffect.
  destruct (String.eqb (ThemeModel.theme st) "light"); simpl;
    rewrite lookup_insert_eq; simpl; rewrite ?insert_insert_eq; auto.
Qed.

(** ** Cancellation, again *)

Lemma cancelOutput_idempotent (o : Output.t) :
  cancelOutput (cancelOutput o) = cancelOutput o.
Proof.
  unfold cancelOutput. destruct (Output.status o) eqn:E; simpl; rewrite ?E;
    reflexivity.
Qed.

Lemma cancelOutput_not_generating (o : Output.t) :
  Output.status (cancelOutput o) ≠ generating.
Proof.
  unfold cancelOutput. destruct (Output.status o) eqn:E; simpl; rewrite ?E;
    discriminate.
Qed.

(** X9.  Cancelling twice is the same as cancelling once. *)
Theorem handleCancel_idempotent (s : App) :
  handleCancel (handleCancel s) = handleCancel s.
Proof.
  unfold handleCancel, setProcessingIds, setOutputs, setIsGenerating. simpl.
  f_equal. rewrite <- list_fmap_compose. apply list_fmap_ext.
  intros i o _. apply cancelOutput_idempotent.
Qed.

(** X10.  Cancellation keeps the outstanding calls; when one of them resolves
    afterwards, its result is dropped: the jobs, the empty in-flight set and
    the flag stay as the cancellation left them. *)
Theorem resolved_after_cancel_is_dropped (s : App) (k : nat) (u : string) :
  calls (handleCancel s) = calls s
  ∧ outputs (settle k (Resolved u) (handleCancel s))
    = outputs (handleCancel s)
  ∧ processingIds (settle k (Resolved u) (handleCancel s)) = ∅
  ∧ isGenerating (settle k (Resolved u) (handleCancel s)) = false.
Proof.
  split; [reflexivity |]. unfold settle.
  destruct (calls (handleCancel s) !! k) as [c |]; [| repeat split].
  simpl. split; [| split; [apply empty_difference_L | reflexivity]].
  rewrite <- list_fmap_compose.
  apply list_fmap_ext. intros i o _. simpl.
  apply completeOutput_guard, cancelOutput_not_generating.
Qed.

(** ** One counter for all ids *)

Lemma sorted_lt_NoDup (l : list Z) : StronglySorted Z.lt l → NoDup l.
Proof.
  induction 1 as [| x l Hs IH Hall]; constructor; [| exact IH].
  intros Hin. rewrite Forall_forall in Hall. specialize (Hall x Hin). lia.
Qed.

Lemma fmap_filter_elem {A : Type} (f : A → Z) (g : A → bool) (l : list A)
    (x : Z) :
  x ∈ f <$> List.filter g l → x ∈ f <$> l.
Proof.
  intros Hx. apply list_elem_of_fmap in Hx as (a & -> & Ha).
  apply list_elem_of_fmap. exists a. split; [reflexivity |].
  apply list_elem_of_In. apply list_elem_of_In in Ha.
  apply filter_In in Ha. tauto.
Qed.

Lemma fmap_filter_sorted {A : Type} (f : A → Z) (g : A → bool) (l : list A) :
  StronglySorted Z.lt (f <$> l) → StronglySorted Z.lt (f <$> List.filter g l).
Proof.
  induction l as [| a l IH]; simpl; intros Hs; [constructor |].
  apply StronglySorted_inv in Hs as [Hs Hall].
  destruct (g a); [| apply IH, Hs]. simpl. constructor; [apply IH, Hs |].
  rewrite Forall_forall in *. intros x Hx. apply Hall.
  apply (fmap_filter_elem f g l x Hx).
Qed.

Lemma allocated_nil (n : Z) : allocated n [].
Proof. split; [constructor |]. intros x Hx. inversion Hx. Qed.

Lemma allocated_mono (n n' : Z) (l : list Z) :
  n ≤ n' → allocated n l → allocated n' l.
Proof.
  intros Hle [Hs Hr]. split; [exact Hs |].
  intros x Hx. specialize (Hr x Hx). lia.
Qed.

Lemma allocated_snoc (n : Z) (l : list Z) :
  0 ≤ n → allocated n l → allocated (n + 1) (l ++ [n]).
Proof.
  intros Hn [Hs Hr]. split.
  - apply StronglySorted_app_2; [| exact Hs | repeat constructor].
    intros a b Ha Hb. apply list_elem_of_singleton in Hb as ->.
    specialize (Hr a Ha). lia.
  - intros x Hx. apply elem_of_app in Hx as [Hx | Hx].
    + specialize (Hr x Hx). lia.
    + apply list_elem_of_singleton in Hx as ->. lia.
Qed.

Lemma allocated_filter {A : Type} (f : A → Z) (g : A → bool) (l : list A)
    (n : Z) :
  allocated n (f <$> l) → allocated n (f <$> List.filter g l).
Proof.
  intros [Hs Hr]. split; [apply fmap_filter_sorted, Hs |].
  intros x Hx. apply Hr, (fmap_filter_elem f g l x Hx).
Qed.

Lemma allocated_matrix (images : list UploadedImage.t) (ps : list Prompt.t)
    (n : Z) :
  0 ≤ n →
  allocated (n + Z.of_nat (length images * length ps))
            (Output.id <$> matrixOutputs images ps n).
Proof.
  intros Hn. split.
  - apply (StronglySorted_fmap Output.id idLt Z.lt); [auto |].
    apply matrixOutputs_sorted.
  - intros x Hx. apply list_elem_of_fmap in Hx as (o & -> & Ho).
    apply matrixOutputs_fresh in Ho. unfold freshJob in Ho. lia.
Qed.

Lemma fmap_keeps_ids (f : Output.t → Output.t) (l : list Output.t) :
  (∀ o, Output.id (f o) = Output.id o) →
  Output.id <$> (f <$> l) = Output.id <$> l.
Proof.
  intros Hid. rewrite <- list_fmap_compose. apply list_fmap_ext.
  intros i o _. apply Hid.
Qed.

Lemma dispatch_outputIds (s : App) (o : Output.t) :
  outputIds (dispatch s o) = outputIds s.
Proof.
  unfold outputIds. destruct (dispatch_outputs s o) as [-> | ->];
    rewrite ?(fmap_keeps_ids (markMissing _)) by apply markMissing_id;
    apply fmap_keeps_ids, markGenerating_id.
Qed.

Lemma dispatch_inputs (s : App) (o : Output.t) :
  uploadedImages (dispatch s o) = uploadedImages s
  ∧ prompts (dispatch s o) = prompts s
  ∧ currentMode (dispatch s o) = currentMode s
  ∧ vectorPrompt (dispatch s o) = vectorPrompt s.
Proof.
  unfold dispatch.
  match goal with |- context [runGeneration o ?s'] => runGeneration_cases s' o end;
    repeat split.
Qed.

Lemma fold_dispatch_frame (items : list Output.t) (s : App) :
  uploadedImages (fold_left dispatch items s) = uploadedImages s
  ∧ prompts (fold_left dispatch items s) = prompts s
  ∧ currentMode (fold_left dispatch items s) = currentMode s
  ∧ vectorPrompt (fold_left dispatch items s) = vectorPrompt s
  ∧ nextId (fold_left dispatch items s) = nextId s
  ∧ outputIds (fold_left dispatch items s) = outputIds s.
Proof.
  revert s. induction items as [| o items IH]; intros s; simpl;
    [repeat split |].
  destruct (IH (dispatch s o)) as (-> & -> & -> & -> & -> & ->).
  destruct (dispatch_inputs s o) as (-> & -> & -> & ->).
  rewrite dispatch_nextId, dispatch_outputIds. repeat split.
Qed.

Lemma schedulerEffect_frame (s : App) :
  uploadedImages (schedulerEffect s) = uploadedImages s
  ∧ prompts (schedulerEffect s) = prompts s
  ∧ currentMode (schedulerEffect s) = currentMode s
  ∧ vectorPrompt (schedulerEffect s) = vectorPrompt s
  ∧ nextId (schedulerEffect s) = nextId s
  ∧ outputIds (schedulerEffect s) = outputIds s.
Proof.
  unfold schedulerEffect.
  destruct (negb (isGenerating s)); [repeat split |].
  destruct (_ && _); [destruct (negb (hasPending s)); repeat split |].
  apply fold_dispatch_frame.
Qed.

Lemma settle_outputIds (k : nat) (r : Settlement) (s : App) :
  outputIds (settle k r s) = outputIds s.
Proof.
  unfold settle, outputIds. destruct (calls s !! k) as [c |]; [| reflexivity].
  destruct r; simpl; apply fmap_keeps_ids; intros o;
    [apply completeOutput_id | apply failOutput_id].
Qed.

Lemma idsDistinct_same (s s' : App) :
  imageIds s' = imageIds s → promptIds s' = promptIds s →
  outputIds s' = outputIds s → nextId s' = nextId s →
  idsDistinct s → idsDistinct s'.
Proof.
  intros Hi Hp Ho Hn [H1 H2 H3 H4 H5 H6].
  split; rewrite ?Hi, ?Hp, ?Ho, ?Hn; assumption.
Qed.

Lemma handleGenerate_cases (s : App) :
  (handleGenerate s).1 = s ∨ buildReady s.
Proof.
  unfold handleGenerate, buildReady.
  destruct (isGenerating s) eqn:Hgen; simpl; [left; reflexivity |].
  destruct (uploadedImages s) as [| im ims] eqn:Himgs; simpl;
    [left; reflexivity |].
  destruct (currentMode s) eqn:Hmode; simpl.
  - destruct (String.eqb_spec (trim (vectorPrompt s)) ""); simpl;
      [left; reflexivity |].
    right. repeat split; [discriminate | left; auto].
  - destruct (prompts s) as [| p ps] eqn:Hps; simpl; [left; reflexivity |].
    right. repeat split; [discriminate | right; split; [auto | discriminate]].
Qed.

Lemma idsDistinct_build (s : App) :
  0 ≤ nextId s → idsDistinct s → buildReady s →
  idsDistinct (handleGenerate s).1.
Proof.
  intros Hn [[Hi1 Hi2] [Hp1 Hp2] _ Hip _ _] Hready.
  rewrite (handleGenerate_ready s Hready).
  set (k := Z.of_nat (length (uploadedImages s) * length (promptsToUse s))).
  assert (Hk : 0 ≤ k) by (unfold k; lia).
  assert (Hnew : ∀ x,
    x ∈ Output.id <$> matrixOutputs (uploadedImages s) (promptsToUse s)
                        (nextId s) → nextId s ≤ x).
  { intros x Hx. apply list_elem_of_fmap in Hx as (o & -> & Ho).
    apply matrixOutputs_fresh in Ho. unfold freshJob in Ho. lia. }
  split; unfold imageIds, promptIds, outputIds in *; simpl.
  - split; [exact Hi1 |]. intros x Hx. specialize (Hi2 x Hx). lia.
  - split; [exact Hp1 |]. intros x Hx. specialize (Hp2 x Hx). lia.
  - apply allocated_matrix, Hn.
  - exact Hip.
  - intros x Hx Hout. specialize (Hi2 x Hx). specialize (Hnew x Hout). lia.
  - intros x Hx Hout. specialize (Hp2 x Hx). specialize (Hnew x Hout). lia.
Qed.

Lemma idsDistinct_no_outputs (s s' : App) :
  imageIds s' = imageIds s ∨ imageIds s' = [] →
  promptIds s' = promptIds s → outputIds s' = [] → nextId s' = nextId s →
  idsDistinct s → idsDistinct s'.
Proof.
  intros Hi Hp Ho Hn [H1 H2 H3 H4 H5 H6].
  split; rewrite ?Hp, ?Ho, ?Hn; try assumption.
  - destruct Hi as [-> | ->]; [assumption | apply allocated_nil].
  - apply allocated_nil.
  - destruct Hi as [-> | ->]; [assumption |]. intros x Hx. inversion Hx.
  - intros x _ Hx. inversion Hx.
  - intros x _ Hx. inversion Hx.
Qed.

Lemma step_ids (s : App) (e : Event) :
  0 ≤ nextId s ∧ idsDistinct s →
  0 ≤ nextId (step s e) ∧ idsDistinct (step s e).
Proof.
  intros [Hn Hd]. destruct e; simpl.
  - destruct (handleGenerate_cases s) as [-> | Hready]; [auto |].
    split; [| apply idsDistinct_build; assumption].
    rewrite (handleGenerate_ready s Hready). simpl. lia.
  - split; [exact Hn |].
    apply (idsDistinct_same s); try reflexivity; [| exact Hd].
    apply fmap_keeps_ids, cancelOutput_id.
  - destruct (schedulerEffect_frame s) as (Hi & Hp & _ & _ & Hnext & Ho).
    rewrite Hnext. split; [exact Hn |].
    apply (idsDistinct_same s); unfold imageIds, promptIds;
      rewrite ?Hi, ?Hp; auto.
  - assert (Hsame : uploadedImages (settle k r s) = uploadedImages s
                    ∧ prompts (settle k r s) = prompts s
                    ∧ nextId (settle k r s) = nextId s).
    { unfold settle. destruct (calls s !! k); [destruct r |]; repeat split. }
    destruct Hsame as (Hi & Hp & Hnext). rewrite Hnext.
    split; [exact Hn |].
    apply (idsDistinct_same s); unfold imageIds, promptIds;
      rewrite ?Hi, ?Hp; auto using settle_outputIds.
  - split; [lia |]. destruct Hd as [Hi Hp Ho Hip Hio Hpo].
    split; unfold imageIds, promptIds, outputIds in *; simpl.
    + rewrite fmap_app. apply allocated_snoc; assumption.
    + apply (allocated_mono (nextId s)); [lia | exact Hp].
    + apply (allocated_mono (nextId s)); [lia | exact Ho].
    + intros x Hx Hin. rewrite fmap_app in Hx.
      apply elem_of_app in Hx as [Hx | Hx]; [exact (Hip x Hx Hin) |].
      apply list_elem_of_singleton in Hx as ->.
      destruct Hp as [_ Hp]. specialize (Hp _ Hin). simpl in Hp. lia.
    + intros x Hx Hin. rewrite fmap_app in Hx.
      apply elem_of_app in Hx as [Hx | Hx]; [exact (Hio x Hx Hin) |].
      apply list_elem_of_singleton in Hx as ->.
      destruct Ho as [_ Ho]. specialize (Ho _ Hin). simpl in Ho. lia.
    + exact Hpo.
  - split; [exact Hn |].
    apply (idsDistinct_no_outputs s); auto.
  - split; [exact Hn |]. destruct Hd as [Hi Hp Ho Hip Hio Hpo].
    split; unfold imageIds, promptIds, outputIds in *; simpl; auto.
    + apply allocated_filter, Hi.
    + intros x Hx. apply Hip. apply (fmap_filter_elem _ _ _ _ Hx).
    + intros x Hx. apply Hio. apply (fmap_filter_elem _ _ _ _ Hx).
  - split; [lia |]. destruct Hd as [Hi Hp Ho Hip Hio Hpo].
    split; unfold imageIds, promptIds, outputIds in *; simpl.
    + apply (allocated_mono (nextId s)); [lia | exact Hi].
    + rewrite fmap_app. apply allocated_snoc; assumption.
    + apply (allocated_mono (nextId s)); [lia | exact Ho].
    + intros x Hx Hin. rewrite fmap_app in Hin.
      apply elem_of_app in Hin as [Hin | Hin]; [exact (Hip x Hx Hin) |].
      apply list_elem_of_singleton in Hin as ->.
      destruct Hi as [_ Hi]. specialize (Hi _ Hx). simpl in Hi. lia.
    + exact Hio.
    + intros x Hx Hin. rewrite fmap_app in Hx.
      apply elem_of_app in Hx as [Hx | Hx]; [exact (Hpo x Hx Hin) |].
      apply list_elem_of_singleton in Hx as ->.
      destruct Ho as [_ Ho]. specialize (Ho _ Hin). simpl in Ho. lia.
  - split; [exact Hn |]. destruct Hd as [Hi Hp Ho Hip Hio Hpo].
    split; unfold imageIds, promptIds, outputIds in *; simpl; auto.
    + apply allocated_filter, Hp.
    + intros x Hx Hin. apply (Hip x Hx). apply (fmap_filter_elem _ _ _ _ Hin).
    + intros x Hx. apply Hpo. apply (fmap_filter_elem _ _ _ _ Hx).
  - split; [exact Hn |]. apply (idsDistinct_same s); auto.
  - assert (Hnext : nextId (handleRegenerate jid s) = nextId s)
      by (unfold handleRegenerate; destruct (negb (isGenerating s));
          reflexivity).
    rewrite Hnext. split; [exact Hn |].
    apply (idsDistinct_same s); auto.
    + unfold handleRegenerate; destruct (negb (isGenerating s)); reflexivity.
    + unfold handleRegenerate; destruct (negb (isGenerating s)); reflexivity.
    + unfold outputIds. rewrite handleRegenerate_outputs.
      apply fmap_keeps_ids, regenerateOutput_id.
  - split; [exact Hn |]. apply (idsDistinct_no_outputs s); auto.
Qed.

Lemma reachable_ids (s : App) : reachable s → 0 ≤ nextId s ∧ idsDistinct s.
Proof.
  induction 1 as [| s e _ IH]; [| apply step_ids, IH].
  split; [reflexivity |].
  split; try apply allocated_nil; intros x Hx; inversion Hx.
Qed.

(** X2.  In every reachable state the ids of the images, of the prompts and of
    the jobs are pairwise distinct, within each kind and across the three
    kinds; all of them are non-negative and below the counter [nextId].  In
    particular no prompt created by the user has the id -1 that vector mode
    gives its prompt. *)
Theorem ids_never_shared (s : App) :
  reachable s →
  NoDup (imageIds s ++ promptIds s ++ outputIds s)
  ∧ (∀ x, x ∈ imageIds s ++ promptIds s ++ outputIds s →
          0 ≤ x < nextId s)
  ∧ -1 ∉ promptIds s.
Proof.
  intros Hr.
  destruct (reachable_ids s Hr)
    as [_ [[Hi1 Hi2] [Hp1 Hp2] [Ho1 Ho2] Hip Hio Hpo]].
  split; [| split].
  - apply NoDup_app. split; [apply sorted_lt_NoDup, Hi1 |]. split.
    + intros x Hx Hin. apply elem_of_app in Hin as [Hin | Hin];
        [exact (Hip x Hx Hin) | exact (Hio x Hx Hin)].
    + apply NoDup_app. split; [apply sorted_lt_NoDup, Hp1 |].
      split; [exact Hpo | apply sorted_lt_NoDup, Ho1].
  - intros x Hx. apply elem_of_app in Hx as [Hx | Hx]; [auto |].
    apply elem_of_app in Hx as [Hx | Hx]; auto.
  - intros Hin. specialize (Hp2 _ Hin). lia.
Qed.

(** ** One dispatch: started call or missing input *)

Lemma dispatch_cases (s : App) (o : Output.t) :
  (∃ img, sourceImageFor s o = Some img
          ∧ promptTextFor s o ≠ ""%string
          ∧ dispatch s o
            = dispatchStarted s o
                (mkCall (Output.id o) (UploadedImage.base64Data img)
                        (promptTextFor s o)))
  ∨ ((sourceImageFor s o = None ∨ promptTextFor s o = ""%string)
     ∧ dispatch s o = dispatchMissing s o).
Proof.
  unfold dispatch, runGeneration, dispatchStarted, dispatchMissing.
  set (s' := setOutputs (fmap (markGenerating (Output.id o)))
               (setProcessingIds (λ P, {[Output.id o]} ∪ P) s)).
  change (sourceImageFor s' o) with (sourceImageFor s o).
  change (promptTextFor s' o) with (promptTextFor s o).
  destruct (sourceImageFor s o) as [img |]; [| right; auto].
  destruct (String.eqb_spec (promptTextFor s o) "") as [Heq | Hne].
  - right. auto.
  - left. exists img. auto.
Qed.

Lemma missing_after_generating (jid : Z) (p : Output.t) :
  markMissing jid (markGenerating jid p)
  = (if Output.id p =? jid
     then Output.withStatusError error (Some missingText) p else p).
Proof.
  unfold markMissing, markGenerating.
  destruct (Output.id p =? jid) eqn:E; simpl; rewrite E; reflexivity.
Qed.

Lemma add_then_delete (j : Z) (P : gset Z) : ({[j]} ∪ P) ∖ {[j]} = P ∖ {[j]}.
Proof.
  apply set_eq. intros x.
  rewrite !elem_of_difference, elem_of_union, elem_of_singleton. tauto.
Qed.

(** X5.  Missing input.  When the image of the job is not among the uploaded
    images, or the prompt text resolves to the empty string, the dispatch
    starts no call: the jobs with this id are put in error with the message
    "Missing image or prompt.", every other job is untouched, and the id is
    not in the in-flight set afterwards. *)
Theorem dispatch_missing_input (s : App) (o : Output.t) :
  sourceImageFor s o = None ∨ promptTextFor s o = ""%string →
  (∀ (i : nat) (p : Output.t), outputs s !! i = Some p →
     outputs (dispatch s o) !! i
     = Some (if Output.id p =? Output.id o
             then Output.withStatusError error
                    (Some "Missing image or prompt."%string) p
             else p))
  ∧ processingIds (dispatch s o) = processingIds s ∖ {[Output.id o]}
  ∧ (Output.id o ∉ processingIds (dispatch s o))
  ∧ calls (dispatch s o) = calls s
  ∧ isGenerating (dispatch s o) = isGenerating s.
Proof.
  intros Hmiss.
  destruct (dispatch_cases s o) as [(img & Himg & Htext & _) | [_ ->]].
  { destruct Hmiss; congruence. }
  unfold dispatchMissing. simpl. split; [| split; [| split]].
  - intros i p Hi. rewrite !list_lookup_fmap, Hi. simpl.
    rewrite missing_after_generating. reflexivity.
  - apply add_then_delete.
  - rewrite elem_of_difference, elem_of_singleton. tauto.
  - split; reflexivity.
Qed.

(** X6.  Started call.  When the image is found and the prompt text is not
    empty, the dispatch marks the jobs with this id as generating, leaves
    the other jobs untouched, adds the id to the in-flight set, and starts
    exactly one call, given the data of that image and that prompt text. *)
Theorem dispatch_starts_call (s : App) (o : Output.t) (img : UploadedImage.t) :
  sourceImageFor s o = Some img →
  promptTextFor s o ≠ ""%string →
  (∀ (i : nat) (p : Output.t), outputs s !! i = Some p →
     outputs (dispatch s o) !! i
     = Some (if Output.id p =? Output.id o
             then Output.withStatus generating p else p))
  ∧ processingIds (dispatch s o) = {[Output.id o]} ∪ processingIds s
  ∧ calls (dispatch s o)
    = calls s ++ [mkCall (Output.id o) (UploadedImage.base64Data img)
                         (promptTextFor s o)].
Proof.
  intros Himg Htext.
  destruct (dispatch_cases s o) as [(img' & Himg' & _ & ->) | [Hmiss _]].
  2: { destruct Hmiss; congruence. }
  assert (img' = img) as -> by congruence.
  unfold dispatchStarted. simpl. split; [| split; reflexivity].
  intros i p Hi. rewrite list_lookup_fmap, Hi. reflexivity.
Qed.

(** ** Removing an input before its job is dispatched *)

Lemma find_after_remove {A : Type} (f : A → Z) (x : Z) (l : list A) :
  List.find (λ a, f a =? x) (List.filter (λ a, negb (f a =? x)) l) = None.
Proof.
  induction l as [| a l IH]; simpl; [reflexivity |].
  destruct (f a =? x) eqn:E; simpl; [exact IH |]. rewrite E. exact IH.
Qed.

(** X7.  After [handleRemoveUpload iid], a job built from image [iid] cannot be
    started any more: its dispatch starts no call, frees the slot and puts
    the job in error with the message "Missing image or prompt.". *)
Theorem removed_image_job_fails (iid : Z) (s : App) (o : Output.t) (i : nat) :
  Output.sourceImageId o = iid →
  outputs s !! i = Some o →
  let s' := dispatch (handleRemoveUpload iid s) o in
  outputs s' !! i
  = Some (Output.withStatusError error
            (Some "Missing image or prompt."%string) o)
  ∧ calls s' = calls s
  ∧ Output.id o ∉ processingIds s'.
Proof.
  intros Hsrc Hi s'. subst s'.
  assert (Hnone : sourceImageFor (handleRemoveUpload iid s) o = None).
  { unfold sourceImageFor, handleRemoveUpload. simpl. rewrite Hsrc.
    apply (find_after_remove UploadedImage.id). }
  destruct (dispatch_cases (handleRemoveUpload iid s) o)
    as [(img & Himg & _) | [_ ->]]; [congruence |].
  unfold dispatchMissing. simpl. split; [| split; [reflexivity |]].
  - rewrite !list_lookup_fmap, Hi. simpl.
    rewrite missing_after_generating, Z.eqb_refl. reflexivity.
  - rewrite elem_of_difference, elem_of_singleton. tauto.
Qed.

(** X8.  In matrix mode, after [handleRemovePrompt pid], a job built from
    prompt [pid] cannot be started any more: its dispatch starts no call,
    frees the slot and puts the job in error with the message
    "Missing image or prompt.". *)
Theorem removed_prompt_job_fails (pid : Z) (s : App) (o : Output.t) (i : nat) :
  currentMode s = matrix →
  Output.promptId o = pid →
  outputs s !! i = Some o →
  let s' := dispatch (handleRemovePrompt pid s) o in
  outputs s' !! i
  = Some (Output.withStatusError error
            (Some "Missing image or prompt."%string) o)
  ∧ calls s' = calls s
  ∧ Output.id o ∉ processingIds s'.
Proof.
  intros Hmode Hpid Hi s'. subst s'.
  assert (Hnone : promptTextFor (handleRemovePrompt pid s) o = ""%string).
  { unfold promptTextFor, handleRemovePrompt. simpl. rewrite Hmode, Hpid.
    rewrite (find_after_remove Prompt.id). reflexivity. }
  destruct (dispatch_cases (handleRemovePrompt pid s) o)
    as [(img & _ & Htext & _) | [_ ->]]; [congruence |].
  unfold dispatchMissing. simpl. split; [| split; [reflexivity |]].
  - rewrite !list_lookup_fmap, Hi. simpl.
    rewrite missing_after_generating, Z.eqb_refl. reflexivity.
  - rewrite elem_of_difference, elem_of_singleton. tauto.
Qed.

(** ** A job that was just built resolves to its image and prompt *)

Lemma find_by_id {A : Type} (f : A → Z) (l : list A) (i : nat) (x : A) :
  NoDup (f <$> l) → l !! i = Some x →
  List.find (λ a, f a =? f x) l = Some x.
Proof.
  revert i. induction l as [| a l IH]; intros i Hnd Hi; [discriminate |].
  rewrite fmap_cons in Hnd. apply NoDup_cons in Hnd as [Hfresh Hnd].
  destruct i as [| i]; simpl in *.
  - injection Hi as ->. rewrite Z.eqb_refl. reflexivity.
  - destruct (Z.eqb_spec (f a) (f x)) as [Heq | _]; [| eauto].
    exfalso. apply Hfresh. rewrite Heq. apply list_elem_of_fmap.
    exists x. split; [reflexivity |]. apply list_elem_of_lookup. eauto.
Qed.

(** X4.  Right after a build from a reachable state, the job at position
    [i * n + j] (the i-th image, the j-th of the n prompts in use) resolves
    to that very image and to the text of that very prompt: these are what a
    dispatch hands to the external call. *)
Theorem built_job_resolves (s : App) (i j : nat) (image : UploadedImage.t)
    (prompt : Prompt.t) :
  reachable s →
  buildReady s →
  uploadedImages s !! i = Some image →
  promptsToUse s !! j = Some prompt →
  let s' := (handleGenerate s).1 in
  ∃ o, outputs s' !! (i * length (promptsToUse s) + j)%nat = Some o
       ∧ Output.sourceImageId o = UploadedImage.id image
       ∧ Output.promptId o = Prompt.id prompt
       ∧ sourceImageFor s' o = Some image
       ∧ promptTextFor s' o = Prompt.text prompt.
Proof.
  intros Hr Hready Hi Hj s'. subst s'.
  destruct (reachable_ids s Hr) as [_ [[Hi1 _] [Hp1 _] _ _ _ _]].
  rewrite (handleGenerate_ready s Hready).
  eexists. split; [apply (matrixOutputs_lookup _ _ _ _ _ _ _ Hi Hj) |].
  split; [reflexivity |]. split; [reflexivity |]. split.
  - unfold sourceImageFor. simpl.
    apply (find_by_id UploadedImage.id _ i); [| exact Hi].
    apply sorted_lt_NoDup, Hi1.
  - unfold promptTextFor, promptsToUse in *. simpl.
    destruct (currentMode s).
    + destruct j as [| j]; [| destruct j; discriminate].
      injection Hj as <-. reflexivity.
    + rewrite (find_by_id Prompt.id _ j prompt); [reflexivity | | exact Hj].
      apply sorted_lt_NoDup, Hp1.
Qed.

(** ** Generating jobs hold a slot and a call *)

Lemma elem_of_delete_other {A : Type} (l : list A) (k : nat) (c x : A) :
  l !! k = Some c → x ∈ l → x ≠ c → x ∈ delete k l.
Proof.
  intros Hk Hx Hne. apply list_elem_of_lookup in Hx as [i Hi].
  apply list_elem_of_lookup.
  destruct (Nat.lt_total i k) as [Hlt | [-> | Hgt]].
  - exists i. rewrite list_lookup_delete_lt by exact Hlt. exact Hi.
  - congruence.
  - exists (Nat.pred i). rewrite list_lookup_delete_ge by lia.
    replace (S (Nat.pred i)) with i by lia. exact Hi.
Qed.

Lemma dispatch_tracked (s : App) (o : Output.t) :
  generatingTracked s → generatingTracked (dispatch s o).
Proof.
  intros Ht p' Hp' Hgen.
  destruct (dispatch_cases s o) as [(img & _ & _ & E) | [_ E]];
    rewrite E in *; clear E; simpl in *.
  - apply list_elem_of_fmap in Hp' as (p & -> & Hp).
    rewrite markGenerating_id.
    destruct (Z.eqb_spec (Output.id p) (Output.id o)) as [Heq | Hne].
    + rewrite Heq. split; [apply elem_of_union_l, elem_of_singleton; reflexivity |].
      eexists. split; [apply elem_of_app; right; left | reflexivity].
    + rewrite markGenerating_other in Hgen by exact Hne.
      destruct (Ht p Hp Hgen) as [Hin (c & Hc & Hjob)].
      split; [apply elem_of_union_r, Hin |].
      exists c. split; [apply elem_of_app; left; exact Hc | exact Hjob].
  - apply list_elem_of_fmap in Hp' as (q & -> & Hq).
    apply list_elem_of_fmap in Hq as (p & -> & Hp).
    rewrite missing_after_generating in *.
    destruct (Z.eqb_spec (Output.id p) (Output.id o)) as [Heq | Hne];
      [discriminate |].
    destruct (Ht p Hp Hgen) as [Hin Hcall]. split; [| exact Hcall].
    rewrite elem_of_difference, elem_of_union, elem_of_singleton. tauto.
Qed.

Lemma fold_dispatch_tracked (items : list Output.t) (s : App) :
  generatingTracked s → generatingTracked (fold_left dispatch items s).
Proof.
  revert s. induction items as [| o items IH]; intros s Ht; simpl;
    [exact Ht | apply IH, dispatch_tracked, Ht].
Qed.

Lemma settle_tracked (k : nat) (r : Settlement) (s : App) :
  generatingTracked s → generatingTracked (settle k r s).
Proof.
  intros Ht. unfold settle. destruct (calls s !! k) as [c |] eqn:Hk;
    [| exact Ht].
  intros p' Hp' Hgen.
  assert (Hold : ∃ p, p' = p ∧ p ∈ outputs s
                      ∧ Output.id p ≠ callJob c).
  { destruct r as [u | m]; simpl in Hp';
      apply list_elem_of_fmap in Hp' as (p & -> & Hp); exists p.
    - unfold completeOutput in *.
      destruct (Z.eqb_spec (Output.id p) (callJob c)) as [Heq | Hne];
        simpl in *; [| auto].
      destruct (bool_decide_reflect (Output.status p = generating));
        simpl in *; [discriminate | contradiction].
    - unfold failOutput in *.
      destruct (Z.eqb_spec (Output.id p) (callJob c)) as [Heq | Hne];
        simpl in *; [discriminate | auto]. }
  destruct Hold as (p & -> & Hp & Hne).
  destruct (Ht p Hp Hgen) as [Hin (c0 & Hc0 & Hjob)].
  assert (Hset : processingIds
                   (applySettlement (callJob c) r (setCalls (delete k) s))
                 = processingIds s ∖ {[callJob c]})
    by (destruct r; reflexivity).
  assert (Hcalls : calls
                     (applySettlement (callJob c) r (setCalls (delete k) s))
                   = delete k (calls s))
    by (destruct r; reflexivity).
  rewrite Hset, Hcalls. split.
  - rewrite elem_of_difference, elem_of_singleton. tauto.
  - exists c0. split; [| exact Hjob].
    apply (elem_of_delete_other _ _ c); [exact Hk | exact Hc0 | congruence].
Qed.

Lemma step_tracked (s : App) (e : Event) :
  generatingTracked s → generatingTracked (step s e).
Proof.
  intros Ht. destruct e; simpl; auto using settle_tracked.
  - destruct (handleGenerate_cases s) as [-> | Hready]; [exact Ht |].
    rewrite (handleGenerate_ready s Hready). intros p Hp Hgen. simpl in Hp.
    apply matrixOutputs_fresh in Hp. unfold freshJob in Hp.
    destruct Hp as [Hst _]. congruence.
  - intros p Hp Hgen. simpl in Hp.
    apply list_elem_of_fmap in Hp as (q & -> & _).
    exfalso. exact (cancelOutput_not_generating q Hgen).
  - unfold schedulerEffect. destruct (negb (isGenerating s)); [exact Ht |].
    destruct (_ && _); [destruct (negb (hasPending s)); exact Ht |].
    apply fold_dispatch_tracked, Ht.
  - intros p Hp. inversion Hp.
  - intros p' Hp' Hgen.
    assert (Hsame : processingIds (handleRegenerate jid s) = processingIds s
                    ∧ calls (handleRegenerate jid s) = calls s)
      by (unfold handleRegenerate; destruct (negb (isGenerating s));
          split; reflexivity).
    destruct Hsame as [-> ->]. rewrite handleRegenerate_outputs in Hp'.
    apply list_elem_of_fmap in Hp' as (p & -> & Hp).
    unfold regenerateOutput in *.
    destruct (Output.id p =? jid); simpl in *; [discriminate | auto].
  - intros p Hp. inversion Hp.
Qed.

Lemma reachable_tracked (s : App) : reachable s → generatingTracked s.
Proof.
  induction 1 as [| s e _ IH]; [| apply step_tracked, IH].
  intros p Hp. inversion Hp.
Qed.

Lemma NoDup_within_size (l : list Z) (X : gset Z) :
  NoDup l → (∀ x, x ∈ l → x ∈ X) → (length l ≤ size X)%nat.
Proof.
  intros Hnd Hsub. rewrite <- (size_list_to_set (C := gset Z) l Hnd).
  apply subseteq_size. intros x Hx. apply elem_of_list_to_set in Hx. auto.
Qed.

(** X11.  In every reachable state, a job whose status is generating has its id
    in the in-flight set and has an outstanding call made for it.  Hence at
    most [API_CONCURRENCY_LIMIT] = 2 jobs are generating at any time. *)
Theorem generating_jobs_bounded (s : App) :
  reachable s →
  (∀ o, o ∈ outputs s → Output.status o = generating →
        Output.id o ∈ processingIds s
        ∧ ∃ c, c ∈ calls s ∧ callJob c = Output.id o)
  ∧ Z.of_nat (length (generatingOutputs s)) ≤ API_CONCURRENCY_LIMIT.
Proof.
  intros Hr. pose proof (reachable_tracked s Hr) as Ht.
  split; [exact Ht |].
  pose proof (reachable_bounded s Hr) as Hb. unfold inFlightBounded in Hb.
  pose proof (wf_sorted _ _ (reachable_wf s Hr)) as Hs.
  assert (Hlen : (length (Output.id <$> generatingOutputs s)
                  ≤ size (processingIds s))%nat).
  { apply NoDup_within_size.
    - apply sorted_ids_NoDup, sorted_filter, Hs.
    - intros x Hx. apply list_elem_of_fmap in Hx as (o & -> & Ho).
      unfold generatingOutputs in Ho. apply list_elem_of_In in Ho.
      apply filter_In in Ho as [Ho Hgen].
      apply bool_decide_eq_true in Hgen. apply list_elem_of_In in Ho.
      apply (Ht o Ho Hgen). }
  rewrite length_fmap in Hlen. lia.
Qed.

(** ** Calls of an earlier batch and the jobs of a later one *)

Lemma dispatch_callsBelow (s : App) (o : Output.t) :
  Output.id o < nextId s → callsBelow s → callsBelow (dispatch s o).
Proof.
  intros Hlt Hc c Hin. rewrite dispatch_nextId.
  destruct (dispatch_cases s o) as [(img & _ & _ & E) | [_ E]];
    rewrite E in Hin; simpl in Hin; [| auto].
  apply elem_of_app in Hin as [Hin | Hin]; [auto |].
  apply list_elem_of_singleton in Hin as ->. exact Hlt.
Qed.

Lemma fold_dispatch_callsBelow (items : list Output.t) (s : App) :
  (∀ o, o ∈ items → Output.id o < nextId s) →
  callsBelow s → callsBelow (fold_left dispatch items s).
Proof.
  revert s. induction items as [| o items IH]; intros s Hlt Hc; simpl;
    [exact Hc |].
  apply IH.
  - intros p Hp. rewrite dispatch_nextId. apply Hlt. right. exact Hp.
  - apply dispatch_callsBelow; [apply Hlt; left | exact Hc].
Qed.

Lemma callsBelow_mono (s s' : App) :
  calls s' = calls s → nextId s ≤ nextId s' → callsBelow s → callsBelow s'.
Proof.
  intros Hc Hn Hb c Hin. rewrite Hc in Hin. specialize (Hb c Hin). lia.
Qed.

Lemma step_callsBelow (s : App) (e : Event) :
  jobsWellFormed s → callsBelow s → callsBelow (step s e).
Proof.
  intros Hwf Hb. destruct e; simpl;
    try (apply (callsBelow_mono s); [reflexivity | simpl; lia | exact Hb]).
  - destruct (handleGenerate_cases s) as [-> | Hready]; [exact Hb |].
    apply (callsBelow_mono s); [| | exact Hb];
      rewrite (handleGenerate_ready s Hready); simpl; [reflexivity | lia].
  - unfold schedulerEffect. destruct (negb (isGenerating s)); [exact Hb |].
    destruct (_ && _); [destruct (negb (hasPending s)); exact Hb |].
    apply fold_dispatch_callsBelow; [| exact Hb].
    intros o Ho. apply (wf_below _ _ Hwf).
    apply itemsToProcess_elem, pendingOutputs_elem in Ho. tauto.
  - unfold settle. destruct (calls s !! k) as [c |]; [| exact Hb].
    intros c0 Hin.
    assert (Hin' : c0 ∈ delete k (calls s)) by (destruct r; exact Hin).
    assert (Hn : nextId (applySettlement (callJob c) r
                           (setCalls (delete k) s)) = nextId s)
      by (destruct r; reflexivity).
    rewrite Hn. apply Hb.
    apply (elem_of_sublist _ _ _ Hin'), sublist_delete.
  - apply (callsBelow_mono s); [| | exact Hb];
      unfold handleRegenerate; destruct (negb (isGenerating s));
      simpl; (reflexivity || lia).
Qed.

Lemma reachable_callsBelow (s : App) : reachable s → callsBelow s.
Proof.
  induction 1 as [| s e Hr IH].
  - intros c Hc. inversion Hc.
  - apply step_callsBelow; [apply reachable_wf, Hr | exact IH].
Qed.

Lemma fmap_fixed {A : Type} (f : A → A) (l : list A) :
  (∀ x, x ∈ l → f x = x) → f <$> l = l.
Proof.
  induction l as [| a l IH]; intros Hfix; simpl; [reflexivity |].
  rewrite (Hfix a) by left. f_equal. apply IH.
  intros x Hx. apply Hfix. right. exact Hx.
Qed.

(** ** What a re-evaluation does to the job list *)

Lemma dispatch_lookup (s : App) (o : Output.t) (i : nat) (p : Output.t) :
  outputs s !! i = Some p →
  (Output.id p ≠ Output.id o → outputs (dispatch s o) !! i = Some p)
  ∧ (Output.id p = Output.id o →
       outputs (dispatch s o) !! i = Some (Output.withStatus generating p)
       ∨ outputs (dispatch s o) !! i
         = Some (Output.withStatusError error (Some missingText) p)).
Proof.
  intros Hi.
  destruct (dispatch_cases s o) as [(img & _ & _ & E) | [_ E]];
    rewrite E; simpl; rewrite ?list_lookup_fmap, Hi; simpl.
  - split; intros Hid.
    + rewrite markGenerating_other by exact Hid. reflexivity.
    + left. unfold markGenerating. rewrite Hid, Z.eqb_refl. reflexivity.
  - rewrite missing_after_generating. split; intros Hid.
    + destruct (Z.eqb_spec (Output.id p) (Output.id o)); [contradiction |].
      reflexivity.
    + right. rewrite Hid, Z.eqb_refl. reflexivity.
Qed.

Lemma fold_dispatch_untouched (items : list Output.t) (s : App) (i : nat)
    (p : Output.t) :
  outputs s !! i = Some p →
  Output.id p ∉ Output.id <$> items →
  outputs (fold_left dispatch items s) !! i = Some p.
Proof.
  revert s. induction items as [| o items IH]; intros s Hi Hnot; simpl;
    [exact Hi |].
  rewrite fmap_cons in Hnot. apply not_elem_of_cons in Hnot as [Hne Hnot].
  apply IH; [| exact Hnot].
  apply (proj1 (dispatch_lookup s o i p Hi) Hne).
Qed.

Lemma fold_dispatch_admitted (items : list Output.t) (s : App) (i : nat)
    (p : Output.t) :
  NoDup (Output.id <$> items) →
  outputs s !! i = Some p →
  Output.id p ∈ Output.id <$> items →
  outputs (fold_left dispatch items s) !! i
  = Some (Output.withStatus generating p)
  ∨ outputs (fold_left dispatch items s) !! i
    = Some (Output.withStatusError error (Some missingText) p).
Proof.
  revert s. induction items as [| o items IH]; intros s Hnd Hi Hin; simpl.
  { inversion Hin. }
  rewrite fmap_cons in Hnd, Hin. apply NoDup_cons in Hnd as [Hfresh Hnd].
  destruct (Z.eq_dec (Output.id p) (Output.id o)) as [Heq | Hne].
  - rewrite <- Heq in Hfresh.
    destruct (proj2 (dispatch_lookup s o i p Hi) Heq) as [Hd | Hd];
      [left | right];
      apply (fold_dispatch_untouched items _ i _ Hd); exact Hfresh.
  - apply elem_of_cons in Hin as [Hin | Hin]; [contradiction |].
    apply IH; [exact Hnd | | exact Hin].
    apply (proj1 (dispatch_lookup s o i p Hi) Hne).
Qed.

(** X13.  A re-evaluation of the scheduler in a reachable state, with the flag
    on, changes the admitted jobs only: each admitted job ends up either
    generating or, when its input is missing, in error with the message
    "Missing image or prompt."; every other job is exactly as before, at
    the same position. *)
Theorem schedulerEffect_touches_admitted_only (s : App) (i : nat)
    (p : Output.t) :
  reachable s →
  isGenerating s = true →
  outputs s !! i = Some p →
  (p ∈ itemsToProcess s →
     outputs (schedulerEffect s) !! i
     = Some (Output.withStatus generating p)
     ∨ outputs (schedulerEffect s) !! i
       = Some (Output.withStatusError error
                 (Some "Missing image or prompt."%string) p))
  ∧ (p ∉ itemsToProcess s → outputs (schedulerEffect s) !! i = Some p).
Proof.
  intros Hr Hon Hi.
  pose proof (wf_sorted _ _ (reachable_wf s Hr)) as Hs.
  assert (Hp : p ∈ outputs s) by (apply list_elem_of_lookup; eauto).
  assert (Hmem : Output.id p ∈ Output.id <$> itemsToProcess s
                 → p ∈ itemsToProcess s).
  { intros Hin. apply list_elem_of_fmap in Hin as (o & Hid & Ho).
    assert (Ho' : o ∈ outputs s).
    { apply itemsToProcess_elem, pendingOutputs_elem in Ho. tauto. }
    rewrite (sorted_id_inj _ p o Hs Hp Ho' Hid). exact Ho. }
  assert (Heff : (itemsToProcess s = []
                  ∧ outputs (schedulerEffect s) = outputs s)
                 ∨ schedulerEffect s
                   = fold_left dispatch (itemsToProcess s) s).
  { unfold schedulerEffect. rewrite Hon. simpl.
    destruct (itemsToProcess s) as [| o items]; [left | right; reflexivity].
    split; [reflexivity |]. simpl.
    destruct (size (processingIds s) =? 0)%nat; [| reflexivity].
    destruct (negb (hasPending s)); reflexivity. }
  destruct Heff as [[Hnil ->] | ->].
  - rewrite Hnil. split; [intros Hin; inversion Hin | intros _; exact Hi].
  - split.
    + intros Hin. apply fold_dispatch_admitted; [| exact Hi |].
      * apply sorted_ids_NoDup, itemsToProcess_sorted, Hs.
      * apply list_elem_of_fmap. eauto.
    + intros Hnot. apply fold_dispatch_untouched; [exact Hi | auto].
Qed.

(** X14.  A re-evaluation wastes no slot: in a reachable state, either every
    candidate (pending and not in flight) is admitted, or the admitted jobs
    fill the in-flight set up to the ceiling. *)
Theorem admission_fills_slots (s : App) :
  reachable s →
  itemsToProcess s = pendingOutputs s
  ∨ Z.of_nat (size (processingIds s)) + Z.of_nat (length (itemsToProcess s))
    = API_CONCURRENCY_LIMIT.
Proof.
  intros Hr. pose proof (reachable_bounded s Hr) as Hb.
  unfold inFlightBounded in Hb. unfold itemsToProcess.
  rewrite slice0_take by (unfold availableSlots; lia).
  destruct (Nat.le_gt_cases (length (pendingOutputs s))
              (Z.to_nat (availableSlots s))) as [Hle | Hgt].
  - left. apply take_ge. exact Hle.
  - right. rewrite length_take. unfold availableSlots in *. lia.
Qed.

(** ** Ids are not handed out twice *)

Lemma step_nextId (s : App) (e : Event) : nextId s ≤ nextId (step s e).
Proof.
  destruct e; simpl; try lia.
  - destruct (handleGenerate_cases s) as [-> | Hready]; [lia |].
    rewrite (handleGenerate_ready s Hready). simpl. lia.
  - destruct (schedulerEffect_frame s) as (_ & _ & _ & _ & -> & _). lia.
  - unfold settle. destruct (calls s !! k); [destruct r |]; simpl; lia.
  - unfold handleRegenerate. destruct (negb (isGenerating s)); simpl; lia.
Qed.

Lemma settle_inputs (k : nat) (r : Settlement) (s : App) :
  uploadedImages (settle k r s) = uploadedImages s
  ∧ prompts (settle k r s) = prompts s.
Proof.
  unfold settle. destruct (calls s !! k); [destruct r |]; split; reflexivity.
Qed.

Lemma handleRegenerate_inputs (jid : Z) (s : App) :
  uploadedImages (handleRegenerate jid s) = uploadedImages s
  ∧ prompts (handleRegenerate jid s) = prompts s.
Proof.
  unfold handleRegenerate. destruct (negb (isGenerating s)); split;
    reflexivity.
Qed.

Lemma step_inUse (s : App) (e : Event) (x : Z) :
  inUse x (step s e) → inUse x s ∨ nextId s ≤ x.
Proof.
  unfold inUse, imageIds, promptIds, outputIds.
  destruct e; simpl; try tauto.
  - destruct (handleGenerate_cases s) as [-> | Hready]; [tauto |].
    rewrite (handleGenerate_ready s Hready). simpl.
    intros [Hx | [Hx | Hx]]; [tauto | tauto |].
    apply list_elem_of_fmap in Hx as (o & -> & Ho).
    apply matrixOutputs_fresh in Ho. unfold freshJob in Ho. right. lia.
  - rewrite (fmap_keeps_ids cancelOutput) by apply cancelOutput_id. tauto.
  - destruct (schedulerEffect_frame s) as (-> & -> & _ & _ & _ & Ho).
    unfold outputIds in Ho. rewrite Ho. tauto.
  - destruct (settle_inputs k r s) as [-> ->].
    pose proof (settle_outputIds k r s) as Ho. unfold outputIds in Ho.
    rewrite Ho. tauto.
  - rewrite fmap_app, elem_of_app. simpl.
    rewrite list_elem_of_singleton. intros [[Hx | ->] | Hx]; try tauto.
    right. lia.
  - intros [Hx | [Hx | Hx]]; [inversion Hx | tauto | inversion Hx].
  - intros [Hx | Hx]; [| tauto]. left. left.
    apply (fmap_filter_elem _ _ _ _ Hx).
  - rewrite fmap_app, elem_of_app. simpl.
    rewrite list_elem_of_singleton. intros [Hx | [[Hx | ->] | Hx]]; try tauto.
    right. lia.
  - intros [Hx | [Hx | Hx]]; [tauto | | tauto]. left. right. left.
    apply (fmap_filter_elem _ _ _ _ Hx).
  - destruct (handleRegenerate_inputs jid s) as [-> ->].
    rewrite handleRegenerate_outputs.
    rewrite (fmap_keeps_ids (regenerateOutput jid))
      by apply regenerateOutput_id.
    tauto.
  - intros [Hx | [Hx | Hx]]; [tauto | tauto | inversion Hx].
Qed.

(** X3.  An id that the counter has passed and that is no longer carried by any
    image, prompt or job (its owner was removed or replaced) is never
    carried by anything again, whatever happens next. *)
Theorem retired_id_never_returns (s : App) (es : list Event) (x : Z) :
  x < nextId s →
  ¬ inUse x s →
  ¬ inUse x (fold_left step es s).
Proof.
  revert s. induction es as [| e es IH]; intros s Hlt Hfree; simpl;
    [exact Hfree |].
  apply IH.
  - pose proof (step_nextId s e). lia.
  - intros Hin. apply step_inUse in Hin as [Hin | Hge]; [auto | lia].
Qed.

(** ** Calls of an earlier batch never reach a later one *)

Lemma step_outputIds (s : App) (e : Event) (x : Z) :
  x ∈ outputIds (step s e) → x ∈ outputIds s ∨ nextId s ≤ x.
Proof.
  unfold outputIds. destruct e; simpl; try tauto.
  - destruct (handleGenerate_cases s) as [-> | Hready]; [tauto |].
    rewrite (handleGenerate_ready s Hready). simpl. intros Hx.
    apply list_elem_of_fmap in Hx as (o & -> & Ho).
    apply matrixOutputs_fresh in Ho. unfold freshJob in Ho. right. lia.
  - rewrite (fmap_keeps_ids cancelOutput) by apply cancelOutput_id. tauto.
  - destruct (schedulerEffect_frame s) as (_ & _ & _ & _ & _ & Ho).
    unfold outputIds in Ho. rewrite Ho. tauto.
  - pose proof (settle_outputIds k r s) as Ho. unfold outputIds in Ho.
    rewrite Ho. tauto.
  - intros Hx. inversion Hx.
  - rewrite handleRegenerate_outputs.
    rewrite (fmap_keeps_ids (regenerateOutput jid))
      by apply regenerateOutput_id.
    tauto.
  - intros Hx. inversion Hx.
Qed.

Lemma fold_dispatch_calls (items : list Output.t) (s : App) (c : Call) :
  c ∈ calls (fold_left dispatch items s) →
  c ∈ calls s ∨ ∃ o, o ∈ items ∧ callJob c = Output.id o.
Proof.
  revert s. induction items as [| o items IH]; intros s Hc; simpl in Hc;
    [left; exact Hc |].
  apply IH in Hc as [Hc | (p & Hp & Hjob)].
  - destruct (dispatch_cases s o) as [(img & _ & _ & E) | [_ E]];
      rewrite E in Hc; simpl in Hc; [| left; exact Hc].
    apply elem_of_app in Hc as [Hc | Hc]; [left; exact Hc |].
    apply list_elem_of_singleton in Hc as ->.
    right. exists o. split; [left | reflexivity].
  - right. exists p. split; [right; exact Hp | exact Hjob].
Qed.

Lemma step_calls (s : App) (e : Event) (c : Call) :
  c ∈ calls (step s e) →
  c ∈ calls s ∨ ∃ o, o ∈ outputs s ∧ callJob c = Output.id o.
Proof.
  destruct e; simpl; try (intros Hc; left; exact Hc).
  - destruct (handleGenerate_cases s) as [-> | Hready]; [tauto |].
    rewrite (handleGenerate_ready s Hready). simpl. tauto.
  - unfold schedulerEffect. destruct (negb (isGenerating s)); [tauto |].
    destruct (_ && _); [destruct (negb (hasPending s)); tauto |].
    intros Hc. apply fold_dispatch_calls in Hc as [Hc | (o & Ho & Hjob)];
      [left; exact Hc |].
    right. exists o. split; [| exact Hjob].
    apply itemsToProcess_elem, pendingOutputs_elem in Ho. tauto.
  - unfold settle. destruct (calls s !! k) as [c0 |]; [| tauto].
    intros Hc. left.
    assert (Hc' : c ∈ delete k (calls s)) by (destruct r; exact Hc).
    apply (elem_of_sublist _ _ _ Hc'), sublist_delete.
  - unfold handleRegenerate. destruct (negb (isGenerating s)); simpl; tauto.
Qed.

(** After a build made when the counter stood at [n]: the counter is at
    least [n], every job has an id of at least [n], and a call is either one
    that was outstanding at the build or was made for an id of at least
    [n]. *)
Lemma later_batches_above (n : Z) (old : list Call) (es : list Event)
    (s : App) :
  n ≤ nextId s →
  (∀ x, x ∈ outputIds s → n ≤ x) →
  (∀ c, c ∈ calls s → c ∈ old ∨ n ≤ callJob c) →
  n ≤ nextId (fold_left step es s)
  ∧ (∀ x, x ∈ outputIds (fold_left step es s) → n ≤ x)
  ∧ (∀ c, c ∈ calls (fold_left step es s) → c ∈ old ∨ n ≤ callJob c).
Proof.
  revert s. induction es as [| e es IH]; intros s Hn Hout Hcalls; simpl;
    [auto |].
  pose proof (step_nextId s e) as Hmono.
  apply IH; [lia | |].
  - intros x Hx. apply step_outputIds in Hx as [Hx | Hx]; [auto | lia].
  - intros c Hc. apply step_calls in Hc as [Hc | (o & Ho & Hjob)]; [auto |].
    right. rewrite Hjob. apply Hout. unfold outputIds.
    apply list_elem_of_fmap. eauto.
Qed.

(** X12.  Take a build by [handleGenerate] from a reachable state, at a
    moment when the counter stands at [nextId s], and let any sequence of
    events follow it (re-evaluations that dispatch the new jobs,
    settlements, regenerations, cancellations, further builds).  Every call
    that was outstanding at the build was made for an id below [nextId s],
    and every call made later is for an id of at least [nextId s].  When a
    call of the first kind settles, at whatever moment and whether it
    resolves or rejects, the job list is left exactly as it is. *)
Theorem old_calls_spare_new_jobs (s : App) (es : list Event) (k : nat)
    (r : Settlement) :
  reachable s →
  buildReady s →
  let built := (handleGenerate s).1 in
  let s' := fold_left step es built in
  (∀ c, c ∈ calls built → callJob c < nextId s)
  ∧ (∀ c, c ∈ calls s' → c ∈ calls built ∨ nextId s ≤ callJob c)
  ∧ ((∀ c, calls s' !! k = Some c → callJob c < nextId s) →
       outputs (settle k r s') = outputs s').
Proof.
  intros Hr Hready built s'.
  pose proof (reachable_callsBelow s Hr) as Hb.
  assert (Hbuilt : built
    = setIsGenerating true
        (setOutputs
           (λ _, matrixOutputs (uploadedImages s) (promptsToUse s) (nextId s))
           (setNextId
              (nextId s
               + Z.of_nat (length (uploadedImages s)
                           * length (promptsToUse s))) s))).
  { unfold built. rewrite (handleGenerate_ready s Hready). reflexivity. }
  destruct (later_batches_above (nextId s) (calls built) es built)
    as (_ & Hout & Hcalls).
  { rewrite Hbuilt. simpl. lia. }
  { rewrite Hbuilt. unfold outputIds. simpl. intros x Hx.
    apply list_elem_of_fmap in Hx as (o & -> & Ho).
    apply matrixOutputs_fresh in Ho. unfold freshJob in Ho. lia. }
  { intros c Hc. left. exact Hc. }
  fold s' in Hout, Hcalls.
  split; [| split; [exact Hcalls |]].
  { intros c Hc. apply Hb. rewrite Hbuilt in Hc. exact Hc. }
  intros Hold. unfold settle.
  destruct (calls s' !! k) as [c |] eqn:Hk; [| reflexivity].
  specialize (Hold c eq_refl).
  assert (Hids : ∀ o, o ∈ outputs s' → Output.id o ≠ callJob c).
  { intros o Ho Heq.
    assert (nextId s ≤ Output.id o).
    { apply Hout. unfold outputIds. apply list_elem_of_fmap. eauto. }
    lia. }
  destruct r as [u | m]; simpl; apply fmap_fixed; intros o Ho;
    specialize (Hids o Ho).
  - unfold completeOutput.
    destruct (Z.eqb_spec (Output.id o) (callJob c)); [contradiction |].
    reflexivity.
  - unfold failOutput.
    destruct (Z.eqb_spec (Output.id o) (callJob c)); [contradiction |].
    reflexivity.
Qed.

(** ** The further theorems at concrete runs *)

Lemma handleGenerate_vector_witness :
  let s := run [EFileLoaded "a"; EFileLoaded "b"; EVectorPromptChange " p "] in
  isGenerating s = false
  ∧ currentMode s = vector
  ∧ trim (vectorPrompt s) = "p"%string
  ∧ length (outputs (handleGenerate s).1) = 2%nat.
Proof.
  intros s.
  assert (Hoff : isGenerating s = false) by (vm_compute; reflexivity).
  assert (Hmode : currentMode s = vector) by (vm_compute; reflexivity).
  assert (Himgs : uploadedImages s ≠ []) by (vm_compute; discriminate).
  assert (Htext : trim (vectorPrompt s) ≠ ""%string)
    by (vm_compute; discriminate).
  destruct (handleGenerate_vector s Hoff Hmode Himgs Htext) as (Hlen & _).
  split; [exact Hoff |]. split; [exact Hmode |].
  split; [vm_compute; reflexivity | exact Hlen].
Defined.


Lemma ids_never_shared_witness :
  let s := run (matrixInputs ++ [EGenerate]) in
  reachable s
  ∧ imageIds s ++ promptIds s ++ outputIds s
    = [0; 1; 2; 3; 4; 5; 6; 7; 8; 9; 10]
  ∧ NoDup (imageIds s ++ promptIds s ++ outputIds s).
Proof.
  intros s. destruct (ids_never_shared s (run_reachable _)) as (Hnd & _).
  split; [apply run_reachable |]. split; [vm_compute; reflexivity | exact Hnd].
Defined.

Lemma dispatch_missing_input_witness :
  let s := run (threeJobsBuilt ++ [ERemoveUpload 0]) in
  let o := Output.mk 3 0 (-1) None pending None in
  sourceImageFor s o = None
  ∧ outputs s !! 0%nat = Some o
  ∧ calls (dispatch s o) = calls s
  ∧ 3 ∉ processingIds (dispatch s o).
Proof.
  intros s o.
  assert (Hnone : sourceImageFor s o = None) by (vm_compute; reflexivity).
  destruct (dispatch_missing_input s o (or_introl Hnone))
    as (_ & _ & Hnot & Hcalls & _).
  split; [exact Hnone |]. split; [vm_compute; reflexivity |].
  split; [exact Hcalls | exact Hnot].
Defined.

Lemma dispatch_starts_call_witness :
  let s := run threeJobsBuilt in
  let o := Output.mk 3 0 (-1) None pending None in
  sourceImageFor s o = Some (UploadedImage.mk 0 "a")
  ∧ promptTextFor s o = "p"%string
  ∧ calls (dispatch s o) = calls s ++ [mkCall 3 "a" (promptTextFor s o)].
Proof.
  intros s o.
  assert (Himg : sourceImageFor s o = Some (UploadedImage.mk 0 "a"))
    by (vm_compute; reflexivity).
  assert (Htext : promptTextFor s o ≠ ""%string)
    by (vm_compute; discriminate).
  destruct (dispatch_starts_call s o _ Himg Htext) as (_ & _ & Hcalls).
  split; [exact Himg |]. split; [vm_compute; reflexivity | exact Hcalls].
Defined.

Lemma removed_image_job_fails_witness :
  let s := run threeJobsBuilt in
  let o := Output.mk 3 0 (-1) None pending None in
  outputs s !! 0%nat = Some o
  ∧ outputs (dispatch (handleRemoveUpload 0 s) o) !! 0%nat
    = Some (Output.mk 3 0 (-1) None error
              (Some "Missing image or prompt."%string)).
Proof.
  intros s o.
  assert (Hi : outputs s !! 0%nat = Some o) by (vm_compute; reflexivity).
  destruct (removed_image_job_fails 0 s o 0 eq_refl Hi) as (Hout & _).
  split; [exact Hi | exact Hout].
Defined.

Lemma removed_prompt_job_fails_witness :
  let s := run (matrixInputs ++ [EGenerate]) in
  let o := Output.mk 5 0 2 None pending None in
  currentMode s = matrix
  ∧ outputs s !! 0%nat = Some o
  ∧ outputs (dispatch (handleRemovePrompt 2 s) o) !! 0%nat
    = Some (Output.mk 5 0 2 None error
              (Some "Missing image or prompt."%string)).
Proof.
  intros s o.
  assert (Hmode : currentMode s = matrix) by (vm_compute; reflexivity).
  assert (Hi : outputs s !! 0%nat = Some o) by (vm_compute; reflexivity).
  destruct (removed_prompt_job_fails 2 s o 0 Hmode eq_refl Hi) as (Hout & _).
  split; [exact Hmode |]. split; [exact Hi | exact Hout].
Defined.

Lemma built_job_resolves_witness :
  let s := run matrixInputs in
  let image := UploadedImage.mk 1 "b" in
  let prompt := Prompt.mk 4 "t3" "x3" in
  reachable s
  ∧ uploadedImages s !! 1%nat = Some image
  ∧ promptsToUse s !! 2%nat = Some prompt
  ∧ ∃ o, outputs (handleGenerate s).1 !! 5%nat = Some o
         ∧ sourceImageFor (handleGenerate s).1 o = Some image
         ∧ promptTextFor (handleGenerate s).1 o = "x3"%string.
Proof.
  intros s image prompt.
  assert (Hready : buildReady s).
  { split; [vm_compute; reflexivity |]. split; [vm_compute; discriminate |].
    right. split; [vm_compute; reflexivity | vm_compute; discriminate]. }
  assert (Hi : uploadedImages s !! 1%nat = Some image)
    by (vm_compute; reflexivity).
  assert (Hj : promptsToUse s !! 2%nat = Some prompt)
    by (vm_compute; reflexivity).
  destruct (built_job_resolves s 1 2 image prompt (run_reachable _)
              Hready Hi Hj) as (o & Ho & _ & _ & Himg & Htext).
  split; [apply run_reachable |]. split; [exact Hi |]. split; [exact Hj |].
  exists o. split; [exact Ho |]. split; [exact Himg | exact Htext].
Defined.

Lemma generating_jobs_bounded_witness :
  let s := run (threeJobsBuilt ++ [EEffect]) in
  reachable s
  ∧ Output.id <$> generatingOutputs s = [3; 4]
  ∧ Z.of_nat (length (generatingOutputs s)) ≤ API_CONCURRENCY_LIMIT.
Proof.
  intros s. destruct (generating_jobs_bounded s (run_reachable _)) as (_ & Hle).
  split; [apply run_reachable |]. split; [vm_compute; reflexivity | exact Hle].
Defined.

Lemma old_calls_spare_new_jobs_witness :
  let s := run (oneJobDispatched ++ [ECancel]) in
  let s' := fold_left step [EEffect] (handleGenerate s).1 in
  reachable s
  ∧ buildReady s
  ∧ nextId s = 2
  ∧ outputs s' = [Output.mk 2 0 (-1) None generating None]
  ∧ callJob <$> calls s' = [1; 2]
  ∧ outputs (settle 0 (Resolved "stale") s') = outputs s'
  ∧ outputs (settle 0 (Rejected "boom") s') = outputs s'.
Proof.
  intros s s'.
  assert (Hr : reachable s) by apply run_reachable.
  assert (Hready : buildReady s).
  { split; [vm_compute; reflexivity |]. split; [vm_compute; discriminate |].
    left. split; [vm_compute; reflexivity | vm_compute; discriminate]. }
  assert (Hold : ∀ c, calls s' !! 0%nat = Some c → callJob c < nextId s).
  { intros c Hc. vm_compute in Hc. injection Hc as <-. vm_compute.
    reflexivity. }
  split; [exact Hr |]. split; [exact Hready |].
  split; [vm_compute; reflexivity |]. split; [vm_compute; reflexivity |].
  split; [vm_compute; reflexivity |]. split.
  - apply (old_calls_spare_new_jobs s [EEffect] 0 (Resolved "stale")
             Hr Hready), Hold.
  - apply (old_calls_spare_new_jobs s [EEffect] 0 (Rejected "boom")
             Hr Hready), Hold.
Defined.

Lemma schedulerEffect_touches_admitted_only_witness :
  let s := run threeJobsBuilt in
  let p := Output.mk 3 0 (-1) None pending None in
  reachable s
  ∧ isGenerating s = true
  ∧ outputs s !! 0%nat = Some p
  ∧ p ∈ itemsToProcess s
  ∧ outputs (schedulerEffect s) !! 0%nat
    = Some (Output.withStatus generating p).
Proof.
  intros s p.
  assert (Hon : isGenerating s = true) by (vm_compute; reflexivity).
  assert (Hi : outputs s !! 0%nat = Some p) by (vm_compute; reflexivity).
  assert (Hin : p ∈ itemsToProcess s).
  { apply list_elem_of_In. vm_compute. left. reflexivity. }
  destruct (schedulerEffect_touches_admitted_only s 0 p (run_reachable _)
              Hon Hi) as [Hadm _].
  split; [apply run_reachable |]. split; [exact Hon |]. split; [exact Hi |].
  split; [exact Hin |].
  destruct (Hadm Hin) as [Hgen | Hmiss]; [exact Hgen |].
  vm_compute in Hmiss. discriminate Hmiss.
Defined.

Lemma admission_fills_slots_witness :
  let s := run threeJobsBuilt in
  reachable s
  ∧ length (pendingOutputs s) = 3%nat
  ∧ length (itemsToProcess s) = 2%nat
  ∧ (itemsToProcess s = pendingOutputs s
     ∨ Z.of_nat (size (processingIds s))
       + Z.of_nat (length (itemsToProcess s)) = API_CONCURRENCY_LIMIT).
Proof.
  intros s. split; [apply run_reachable |].
  split; [vm_compute; reflexivity |]. split; [vm_compute; reflexivity |].
  apply (admission_fills_slots s (run_reachable _)).
Defined.

Lemma retired_id_never_returns_witness :
  let s := run [EFileLoaded "a"; ERemoveUpload 0] in
  0 < nextId s
  ∧ ¬ inUse 0 s
  ∧ ¬ inUse 0 (fold_left step
                 [EFileLoaded "b"; EVectorPromptChange "p"; EGenerate] s).
Proof.
  intros s.
  assert (Hlt : 0 < nextId s) by (vm_compute; reflexivity).
  assert (Hfree : ¬ inUse 0 s).
  { intros [Hin | [Hin | Hin]]; vm_compute in Hin; inversion Hin. }
  split; [exact Hlt |]. split; [exact Hfree |].
  apply (retired_id_never_returns s _ 0 Hlt Hfree).
Defined.

(** ** Settlement of the call of a generating job *)

(** X15.  When the call made for a job settles while the job is still generating:
    a resolved call completes the job with the returned image and no error,
    a rejected call puts it in error with the message of the rejection and
    keeps its result field.  Either way the jobs with other ids are
    untouched, the id leaves the in-flight set, and exactly this call leaves
    the list of outstanding calls. *)
Theorem settlement_outcomes (s : App) (k : nat) (c : Call) (i : nat)
    (o : Output.t) (r : Settlement) :
  calls s !! k = Some c →
  outputs s !! i = Some o →
  Output.id o = callJob c →
  Output.status o = generating →
  outputs (settle k r s) !! i
  = Some (match r with
          | Resolved u => Output.withResult complete (Some u) None o
          | Rejected m => Output.withStatusError error (Some m) o
          end)
  ∧ (∀ (i' : nat) (p : Output.t), outputs s !! i' = Some p →
       Output.id p ≠ callJob c → outputs (settle k r s) !! i' = Some p)
  ∧ processingIds (settle k r s) = processingIds s ∖ {[callJob c]}
  ∧ calls (settle k r s) = delete k (calls s).
Proof.
  intros Hk Hi Hid Hgen. unfold settle. rewrite Hk.
  destruct r as [u | m]; simpl; (split; [| split; [| split; reflexivity]]).
  - rewrite list_lookup_fmap, Hi. simpl. unfold completeOutput.
    rewrite Hid, Z.eqb_refl, (bool_decide_eq_true_2 _ Hgen). reflexivity.
  - intros i' p Hp Hne. rewrite list_lookup_fmap, Hp. simpl.
    unfold completeOutput.
    destruct (Z.eqb_spec (Output.id p) (callJob c)); [contradiction |].
    reflexivity.
  - rewrite list_lookup_fmap, Hi. simpl.
    rewrite failOutput_no_guard by exact Hid. reflexivity.
  - intros i' p Hp Hne. rewrite list_lookup_fmap, Hp. simpl.
    unfold failOutput.
    destruct (Z.eqb_spec (Output.id p) (callJob c)); [contradiction |].
    reflexivity.
Qed.

(** ** Discarding the jobs during a run *)



Lemma settlement_outcomes_witness :
  let s := run oneJobDispatched in
  let o := Output.mk 1 0 (-1) None generating None in
  calls s !! 0%nat = Some (mkCall 1 "data" "p")
  ∧ outputs s !! 0%nat = Some o
  ∧ outputs (settle 0 (Resolved "url") s) !! 0%nat
    = Some (Output.mk 1 0 (-1) (Some "url"%string) complete None)
  ∧ processingIds (settle 0 (Resolved "url") s) = processingIds s ∖ {[1]}.
Proof.
  intros s o.
  assert (Hk : calls s !! 0%nat = Some (mkCall 1 "data" "p"))
    by (vm_compute; reflexivity).
  assert (Hi : outputs s !! 0%nat = Some o) by (vm_compute; reflexivity).
  destruct (settlement_outcomes s 0 _ 0 o (Resolved "url") Hk Hi eq_refl
              eq_refl) as (Hout & _ & Hset & _).
  split; [exact Hk |]. split; [exact Hi |]. split; [exact Hout | exact Hset].
Defined.

